(** * Pong: the physics kernel and the scoring step, verified

    A shallow embedding of [src/physics.ts] (clamp, lerp, sign,
    foldYReflect, resolvePaddleHit) and of the simulation state of the
    game's main module (score, resetRound, ballStep and what they call;
    paddleMove, aiStep, leftInput, the key and pointer handlers and tick).

    Numbers.  The source computes on JavaScript numbers.  They are modelled
    here as real numbers: every value is finite and arithmetic is exact.
    Rounding, overflow, [NaN] and the infinities are outside this model, and
    so is division by zero: a statement about a value the source computes
    through a quotient assumes that the divisor is not zero. *)

From Stdlib Require Import Reals Lra Lia ZArith Bool String List.
Import ListNotations.
Open Scope R_scope.

(** ** Numbers, comparisons and the [Math] builtins the source calls *)

Abbreviation number := R (only parsing).

Definition ltb (a b : number) : bool := if Rlt_dec a b then true else false.
Definition leb (a b : number) : bool := if Rle_dec a b then true else false.
Definition gtb (a b : number) : bool := ltb b a.
Definition geb (a b : number) : bool := leb b a.

Infix "<?" := ltb (at level 70, no associativity) : R_scope.
Infix "<=?" := leb (at level 70, no associativity) : R_scope.
Infix ">?" := gtb (at level 70, no associativity) : R_scope.
Infix ">=?" := geb (at level 70, no associativity) : R_scope.

(** Truncation toward zero, as the [%] operator uses it. *)
Definition trunc (x : number) : Z :=
  if Rle_dec 0 x then Int_part x else (- Int_part (- x))%Z.

(** [a % b]: the remainder of the truncated division; it has the sign of
    the dividend. *)
Definition remainder (a b : number) : number := a - b * IZR (trunc (a / b)).

Infix "rem" := remainder (at level 40, no associativity) : R_scope.

Module Math.
Definition max (a b : number) : number := Rmax a b.
Definition min (a b : number) : number := Rmin a b.
Definition abs (a : number) : number := Rabs a.
Definition hypot (a b : number) : number := sqrt (a * a + b * b).
Definition cos (a : number) : number := Rtrigo_def.cos a.
Definition sin (a : number) : number := Rtrigo_def.sin a.
Definition exp (a : number) : number := Rtrigo_def.exp a.
Definition floor (a : number) : number := IZR (Int_part a).
(** [Math.round] rounds to the nearest integer, halves upward. *)
Definition round (a : number) : number := IZR (Int_part (a + 0.5)).
End Math.

(** ** physics.ts *)

Definition clamp (v lo hi : number) : number := Math.max lo (Math.min hi v).

Definition lerp (a b t : number) : number := a + (b - a) * t.

Definition sign (v : number) : number := if v <? 0 then -1 else 1.

Definition foldYReflect (y minY maxY : number) : number :=
  let span := maxY - minY in
  if span <=? 0 then minY
  else
    let v := y - minY in
    let period := 2 * span in
    let v := ((v rem period) + period) rem period in
    let v := if v >? span then period - v else v in
    v + minY.

Module Paddle.
Record t : Type := mk { x : number; y : number; vy : number; w : number; h : number }.
End Paddle.

Module Ball.
Record t : Type := mk { x : number; y : number; vx : number; vy : number; r : number }.
End Ball.

Module HitResult.
Record t : Type := mk { hit : bool; vx : number; vy : number; x : number }.
End HitResult.

(** The argument object of [resolvePaddleHit]. *)
Module Opts.
Record t : Type := mk {
  paddle : Paddle.t;
  ball : Ball.t;
  isLeft : bool;
  speedUp : number;
  maxSpeed : number;
  dpr : number
}.
End Opts.

(** The outgoing angle divides by [p.h * 0.5] and by [1150 * dpr]: the
    embedding follows the source where the paddle height and [dpr] are not
    zero (the hit flag and the resolved [x] do not depend on the angle). *)
Definition resolvePaddleHit (opts : Opts.t) : HitResult.t :=
  let p := Opts.paddle opts in
  let b := Opts.ball opts in
  let isLeft := Opts.isLeft opts in
  let speedUp := Opts.speedUp opts in
  let maxSpeed := Opts.maxSpeed opts in
  let dpr := Opts.dpr opts in
  let px0 := Paddle.x p in
  let px1 := Paddle.x p + Paddle.w p in
  let py0 := Paddle.y p in
  let py1 := Paddle.y p + Paddle.h p in
  let bx0 := Ball.x b - Ball.r b in
  let bx1 := Ball.x b + Ball.r b in
  let by0 := Ball.y b - Ball.r b in
  let by1 := Ball.y b + Ball.r b in
  if (bx1 <? px0) || (bx0 >? px1) || (by1 <? py0) || (by0 >? py1) then
    HitResult.mk false (Ball.vx b) (Ball.vy b) (Ball.x b)
  else
    (* Push ball outside paddle on x *)
    let x := if isLeft then px1 + Ball.r b else px0 - Ball.r b in
    let speed := Math.hypot (Ball.vx b) (Ball.vy b) in
    let newSpeed := Math.min (speed * speedUp) (maxSpeed * dpr) in
    let impact := (Ball.y b - (Paddle.y p + Paddle.h p * 0.5)) / (Paddle.h p * 0.5) in
    let spin := clamp ((Paddle.vy p / (1150 * dpr)) * 0.55) (-0.55) 0.55 in
    let ang := clamp (impact * 0.75 + spin) (-0.95) 0.95 in
    let dir := if isLeft then 1 else -1 in
    let vx := Math.cos ang * newSpeed * dir in
    let vy := Math.sin ang * newSpeed in
    HitResult.mk true vx vy x.

(** ** main.ts: the game state *)

Definition eqb (a b : number) : bool := if Req_dec_T a b then true else false.
Infix "=?" := eqb (at level 70, no associativity) : R_scope.

(** [x || d] on numbers: [d] when [x] is zero. *)
Definition orElse (x d : number) : number := if x =? 0 then d else x.

Module Mode.
Inductive t : Type := attract | serve | play | pause | over.
Definition eqb (a b : t) : bool :=
  match a, b with
  | attract, attract | serve, serve | play, play | pause, pause | over, over => true
  | _, _ => false
  end.
End Mode.

Module ScoreSide.
Inductive t : Type := L | R.
End ScoreSide.

Module DifficultyConfig.
Record t : Type := mk {
  label : string;
  aiMaxSpeed : number;
  aiReactionMs : number;
  aiErrorPx : number;
  ballSpeed : number;
  speedUp : number
}.
End DifficultyConfig.

Module Difficulty.
Definition Easy : DifficultyConfig.t := DifficultyConfig.mk "Easy" 720 190 26 820 1.035.
Definition Normal : DifficultyConfig.t := DifficultyConfig.mk "Normal" 980 130 16 900 1.045.
Definition Hard : DifficultyConfig.t := DifficultyConfig.mk "Hard" 1250 90 8 980 1.055.
End Difficulty.

Definition DiffOrder : list DifficultyConfig.t :=
  [Difficulty.Easy; Difficulty.Normal; Difficulty.Hard].

(** The [state] object; [t'] is its field [t], the elapsed time. *)
Module State.
Record t : Type := mk {
  mode : Mode.t;
  diff : DifficultyConfig.t;
  sound : bool;
  scoreL : Z;
  scoreR : Z;
  maxScore : Z;
  lastT : number;
  t' : number
}.
End State.

Module World.
Record t : Type := mk {
  w : number;
  h : number;
  padW : number;
  padH : number;
  padInset : number;
  ballR : number;
  netW : number;
  netGap : number
}.
End World.

Module Left.
Record t : Type := mk { x : number; y : number; vy : number; targetY : option number }.
End Left.

Module Right.
Record t : Type := mk {
  x : number;
  y : number;
  vy : number;
  targetY : option number;
  lastReactAt : number
}.
End Right.

(** The [ball] object of the game (position, velocity, glow). *)
Module BallObj.
Record t : Type := mk { x : number; y : number; vx : number; vy : number; glow : number }.
End BallObj.

Module Canvas.
Record t : Type := mk { width : number; height : number }.
End Canvas.

(** What a call reads from the browser: [window.devicePixelRatio] and the
    size of [canvas.getBoundingClientRect()]. *)
Module Env.
Record t : Type := mk { devicePixelRatio : number; rectWidth : number; rectHeight : number }.
End Env.

(** The calls into the sound synthesiser and the page, in the order made. *)
Inductive Sound : Type := SndHit | SndWall | SndScore | SndServe | SndWin.

Inductive Effect : Type :=
| Sfx (s : Sound)
| ShowOverlay (on : bool)
| ScoreText (l r : Z)
| ModeText (m : Mode.t)
| DiffText (s : string)
| SoundText (on : bool)
| StartText (s : string).

Record Game : Type := mkGame {
  state : State.t;
  world : World.t;
  left : Left.t;
  right : Right.t;
  ball : BallObj.t;
  canvas : Canvas.t;
  fx : list Effect
}.

Definition with_state (s : State.t) (g : Game) : Game :=
  mkGame s (world g) (left g) (right g) (ball g) (canvas g) (fx g).
Definition with_ball (b : BallObj.t) (g : Game) : Game :=
  mkGame (state g) (world g) (left g) (right g) b (canvas g) (fx g).
Definition with_canvas (c : Canvas.t) (g : Game) : Game :=
  mkGame (state g) (world g) (left g) (right g) (ball g) c (fx g).
Definition emit (e : Effect) (g : Game) : Game :=
  mkGame (state g) (world g) (left g) (right g) (ball g) (canvas g) (fx g ++ [e]).

Definition set_mode (m : Mode.t) (s : State.t) : State.t :=
  State.mk m (State.diff s) (State.sound s) (State.scoreL s) (State.scoreR s)
    (State.maxScore s) (State.lastT s) (State.t' s).
Definition set_diff (d : DifficultyConfig.t) (s : State.t) : State.t :=
  State.mk (State.mode s) d (State.sound s) (State.scoreL s) (State.scoreR s)
    (State.maxScore s) (State.lastT s) (State.t' s).
Definition set_sound (on : bool) (s : State.t) : State.t :=
  State.mk (State.mode s) (State.diff s) on (State.scoreL s) (State.scoreR s)
    (State.maxScore s) (State.lastT s) (State.t' s).
Definition set_scoreL (n : Z) (s : State.t) : State.t :=
  State.mk (State.mode s) (State.diff s) (State.sound s) n (State.scoreR s)
    (State.maxScore s) (State.lastT s) (State.t' s).
Definition set_scoreR (n : Z) (s : State.t) : State.t :=
  State.mk (State.mode s) (State.diff s) (State.sound s) (State.scoreL s) n
    (State.maxScore s) (State.lastT s) (State.t' s).

(** The module-level objects as the source initialises them. *)
Definition initial (now : number) (c : Canvas.t) : Game :=
  mkGame
    (State.mk Mode.attract Difficulty.Normal true 0 0 11 now 0)
    (World.mk 960 540 16 108 36 9.5 5 18)
    (Left.mk 0 0 0 None)
    (Right.mk 0 0 0 None 0)
    (BallObj.mk 0 0 0 0 0)
    c
    [].

(** ** main.ts: the functions *)

Definition DPR (env : Env.t) : number :=
  Math.max 1 (Math.min 2.5 (orElse (Env.devicePixelRatio env) 1)).

Definition fitCanvas (env : Env.t) (g : Game) : Game :=
  let dpr := DPR env in
  let w := Math.max 320 (Math.floor (Env.rectWidth env * dpr)) in
  let h := Math.max 240 (Math.floor (Env.rectHeight env * dpr)) in
  if negb (Canvas.width (canvas g) =? w) || negb (Canvas.height (canvas g) =? h)
  then with_canvas (Canvas.mk w h) g
  else g.

Definition setMode (mode : Mode.t) (g : Game) : Game :=
  emit (ModeText mode) (with_state (set_mode mode (state g)) g).

Definition setDifficulty (diff : DifficultyConfig.t) (g : Game) : Game :=
  emit (DiffText (DifficultyConfig.label diff)) (with_state (set_diff diff (state g)) g).

Definition setSound (on : bool) (g : Game) : Game :=
  emit (SoundText on) (with_state (set_sound on (state g)) g).

Definition resetRound (env : Env.t) (mode : Mode.t) (g : Game) : Game :=
  let g := fitCanvas env g in
  let w := Canvas.width (canvas g) in
  let h := Canvas.height (canvas g) in
  let padW := Math.max 12 (Math.round (w * 0.016)) in
  let padH := Math.max 70 (Math.round (h * 0.20)) in
  let padInset := Math.max 20 (Math.round (w * 0.04)) in
  let ballR := Math.max 7 (Math.round (w * 0.010)) in
  let netW := Math.max 3 (Math.round (w * 0.006)) in
  let netGap := Math.max 12 (Math.round (h * 0.03)) in
  let y0 := (h - padH) * 0.5 in
  setMode mode
    (mkGame (state g)
       (World.mk w h padW padH padInset ballR netW netGap)
       (Left.mk padInset y0 0 (Left.targetY (left g)))
       (Right.mk (w - padInset - padW) y0 0 (Right.targetY (right g)) 0)
       (BallObj.mk (w * 0.5) (h * 0.5) 0 0 0)
       (canvas g)
       (fx g)).

(** [serve(dir)]; [rnd] is the value [Math.random()] returns. *)
Definition serve (env : Env.t) (rnd : number) (dir : number) (g : Game) : Game :=
  let speed := DifficultyConfig.ballSpeed (State.diff (state g)) * DPR env in
  let angle := rnd * 0.62 - 0.31 in
  let b := ball g in
  let g := with_ball (BallObj.mk (BallObj.x b) (BallObj.y b)
                        (Math.cos angle * speed * dir) (Math.sin angle * speed) 1) g in
  emit (Sfx SndServe) (setMode Mode.play g).

Definition score (env : Env.t) (side : ScoreSide.t) (g : Game) : Game :=
  let s := state g in
  let g :=
    match side with
    | ScoreSide.L => with_state (set_scoreL (State.scoreL s + 1) s) g
    | ScoreSide.R => with_state (set_scoreR (State.scoreR s + 1) s) g
    end in
  let g := emit (ScoreText (State.scoreL (state g)) (State.scoreR (state g))) g in
  let g := emit (Sfx SndScore) g in
  if (State.scoreL (state g) >=? State.maxScore (state g))%Z
     || (State.scoreR (state g) >=? State.maxScore (state g))%Z
  then
    emit (StartText "Play again")
      (emit (ShowOverlay true) (emit (Sfx SndWin) (setMode Mode.over g)))
  else resetRound env Mode.serve g.

(** The closure [hitPaddle] of [ballStep]; the paddle object [p] is passed
    as its fields [x], [y] and [vy]. *)
Definition hitPaddle (env : Env.t) (px py pvy : number) (isLeft : bool) (g : Game)
  : Game * bool :=
  let r := World.ballR (world g) in
  let b := ball g in
  let px0 := px in
  let px1 := px + World.padW (world g) in
  let py0 := py in
  let py1 := py + World.padH (world g) in
  let bx0 := BallObj.x b - r in
  let bx1 := BallObj.x b + r in
  let by0 := BallObj.y b - r in
  let by1 := BallObj.y b + r in
  if (bx1 <? px0) || (bx0 >? px1) || (by1 <? py0) || (by0 >? py1) then (g, false)
  else
    let dpr := DPR env in
    let res :=
      resolvePaddleHit
        (Opts.mk
           (Paddle.mk px py pvy (World.padW (world g)) (World.padH (world g)))
           (Ball.mk (BallObj.x b) (BallObj.y b) (BallObj.vx b) (BallObj.vy b) r)
           isLeft
           (DifficultyConfig.speedUp (State.diff (state g)))
           1780
           dpr) in
    if negb (HitResult.hit res) then (g, false)
    else
      (emit (Sfx SndHit)
         (with_ball
            (BallObj.mk (HitResult.x res) (BallObj.y b)
               (HitResult.vx res) (HitResult.vy res) 1) g),
       true).

(** The first half of [ballStep] in play: the ball moves and bounces off
    the top and bottom walls. *)
Definition ballMove (dt : number) (g : Game) : Game :=
  let b := ball g in
  let x := BallObj.x b + BallObj.vx b * dt in
  let y := BallObj.y b + BallObj.vy b * dt in
  let r := World.ballR (world g) in
  if y <? r then
    emit (Sfx SndWall)
      (with_ball (BallObj.mk x r (BallObj.vx b) (Math.abs (BallObj.vy b)) 1) g)
  else if y >? World.h (world g) - r then
    emit (Sfx SndWall)
      (with_ball
         (BallObj.mk x (World.h (world g) - r) (BallObj.vx b)
            (- Math.abs (BallObj.vy b)) 1) g)
  else with_ball (BallObj.mk x y (BallObj.vx b) (BallObj.vy b) (BallObj.glow b)) g.

Definition ballStep (env : Env.t) (dt : number) (g : Game) : Game :=
  if negb (Mode.eqb (State.mode (state g)) Mode.play) then
    (* gentle drift in attract/serve modes *)
    let b := ball g in
    with_ball
      (BallObj.mk
         (lerp (BallObj.x b) (World.w (world g) * 0.5) (1 - Math.exp (- 8 * dt)))
         (lerp (BallObj.y b) (World.h (world g) * 0.5) (1 - Math.exp (- 8 * dt)))
         (BallObj.vx b) (BallObj.vy b)
         (lerp (BallObj.glow b) 0 (1 - Math.exp (- 6 * dt)))) g
  else
    let g := ballMove dt g in
    let r := World.ballR (world g) in
    (* Paddle collisions *)
    let g :=
      if BallObj.vx (ball g) <? 0
      then fst (hitPaddle env (Left.x (left g)) (Left.y (left g)) (Left.vy (left g)) true g)
      else fst (hitPaddle env (Right.x (right g)) (Right.y (right g)) (Right.vy (right g)) false g) in
    (* Scoring *)
    let g :=
      if BallObj.x (ball g) <? - r * 2 then score env ScoreSide.R g
      else if BallObj.x (ball g) >? World.w (world g) + r * 2 then score env ScoreSide.L g
      else g in
    let b := ball g in
    with_ball
      (BallObj.mk (BallObj.x b) (BallObj.y b) (BallObj.vx b) (BallObj.vy b)
         (lerp (BallObj.glow b) 0 (1 - Math.exp (- 5 * dt)))) g.

(** [Array.prototype.findIndex], counting from [i]. *)
Fixpoint findIndex {A : Type} (f : A -> bool) (l : list A) (i : Z) : Z :=
  match l with
  | [] => (-1)%Z
  | a :: l' => if f a then i else findIndex f l' (i + 1)%Z
  end.

Definition cycleDifficulty (g : Game) : Game :=
  let i :=
    findIndex
      (fun d => String.eqb (DifficultyConfig.label d)
                  (DifficultyConfig.label (State.diff (state g))))
      DiffOrder 0%Z in
  let next :=
    nth (Z.to_nat (Z.rem (i + 1) (Z.of_nat (List.length DiffOrder)))) DiffOrder
      (State.diff (state g)) in
  setDifficulty next g.

(** The statements at the end of the module, run once when it loads. *)
Definition boot (env : Env.t) (now : number) (c : Canvas.t) : Game :=
  let g := fitCanvas env (initial now c) in
  let g := setDifficulty Difficulty.Normal g in
  let g := setSound true g in
  let g := resetRound env Mode.attract g in
  let g := setMode Mode.attract g in
  emit (ShowOverlay true) g.

(** ** main.ts: paddles, the opponent and the player's input *)

Definition with_left (l : Left.t) (g : Game) : Game :=
  mkGame (state g) (world g) l (right g) (ball g) (canvas g) (fx g).
Definition with_right (r : Right.t) (g : Game) : Game :=
  mkGame (state g) (world g) (left g) r (ball g) (canvas g) (fx g).
Definition with_world (wd : World.t) (g : Game) : Game :=
  mkGame (state g) wd (left g) (right g) (ball g) (canvas g) (fx g).

Definition set_size (w h : number) (wd : World.t) : World.t :=
  World.mk w h (World.padW wd) (World.padH wd) (World.padInset wd) (World.ballR wd)
    (World.netW wd) (World.netGap wd).
Definition set_time (lastT t : number) (s : State.t) : State.t :=
  State.mk (State.mode s) (State.diff s) (State.sound s) (State.scoreL s) (State.scoreR s)
    (State.maxScore s) lastT t.

(** [paddleMove(p, dt, desire)]; the paddle object [p] is passed as its
    fields [y] and [vy], and their new values are returned. *)
Definition paddleMove (env : Env.t) (wd : World.t) (y vy dt desire : number)
  : number * number :=
  let max := 1120 * DPR env in
  let accel := 6200 * DPR env in
  let damp := 24 in
  (* desire is -1..1 *)
  let target := desire * max in
  let vy := lerp vy target (1 - Math.exp (- damp * dt)) in
  (* extra acceleration for snappy feel *)
  let vy := vy + (target - vy) * clamp (accel * dt / max) 0 1 in
  let vy := clamp vy (- max) max in
  let y := y + vy * dt in
  let y := clamp y 0 (World.h wd - World.padH wd) in
  (y, vy).

(** [aiStep(dt)]; [now] is what [nowMs()] returns and [rnd] what
    [Math.random()] returns when the opponent re-aims. *)
Definition aiStep (env : Env.t) (now rnd dt : number) (g : Game) : Game :=
  let wd := world g in
  let r := right g in
  let b := ball g in
  if negb (Mode.eqb (State.mode (state g)) Mode.play)
     && negb (Mode.eqb (State.mode (state g)) Mode.serve)
  then
    (* idle float *)
    let bob := Math.sin (State.t' (state g) * 0.0012) * 0.25 in
    with_right
      (Right.mk (Right.x r)
         (clamp (Right.y r + bob * 140 * dt) 0 (World.h wd - World.padH wd))
         0 (Right.targetY r) (Right.lastReactAt r)) g
  else
    let d := State.diff (state g) in
    let t := now in
    let r :=
      if t - Right.lastReactAt r >? DifficultyConfig.aiReactionMs d then
        (* Predict where ball will cross the AI paddle plane (roughly). *)
        let predictY :=
          if BallObj.vx b >? 0 then
            let planeX := Right.x r - World.ballR wd in
            let timeToPlane := (planeX - BallObj.x b) / BallObj.vx b in
            if (timeToPlane >? 0) && (timeToPlane <? 2.0) then
              let predictY := BallObj.y b + BallObj.vy b * timeToPlane in
              (* reflect on top/bottom to simulate bounces *)
              let minY := World.ballR wd in
              let maxY := World.h wd - World.ballR wd in
              let span := maxY - minY in
              if span >? 0 then foldYReflect predictY minY maxY else predictY
            else World.h wd * 0.5
          else World.h wd * 0.5 in
        let err := (rnd * 2 - 1) * DifficultyConfig.aiErrorPx d * DPR env in
        Right.mk (Right.x r) (Right.y r) (Right.vy r)
          (Some (clamp (predictY - World.padH wd * 0.5 + err) 0 (World.h wd - World.padH wd)))
          t
      else r in
    (* Move toward target *)
    let dy :=
      match Right.targetY r with Some ty => ty | None => Right.y r end - Right.y r in
    let desire := clamp (dy / (World.h wd * 0.15)) (-1) 1 in
    let oldY := Right.y r in
    let moved := paddleMove env wd (Right.y r) (Right.vy r) dt desire in
    (* cap AI max speed *)
    let maxV := DifficultyConfig.aiMaxSpeed d * DPR env in
    let actualV := (fst moved - oldY) / dt in
    if Math.abs actualV >? maxV then
      with_right
        (Right.mk (Right.x r) (oldY + sign actualV * maxV * dt) (sign actualV * maxV)
           (Right.targetY r) (Right.lastReactAt r)) g
    else
      with_right
        (Right.mk (Right.x r) (fst moved) (snd moved) (Right.targetY r)
           (Right.lastReactAt r)) g.

(** The [input] object. *)
Module Side.
Inductive t : Type := left | right.
Definition eqb (a b : t) : bool :=
  match a, b with
  | left, left | right, right => true
  | _, _ => false
  end.
End Side.

Module Pointer.
Record t : Type := mk { active : bool; id : option Z; side : Side.t; y : number }.
End Pointer.

Module Input.
Record t : Type := mk { up : bool; down : bool; pointer : Pointer.t }.
End Input.

Definition initialInput : Input.t :=
  Input.mk false false (Pointer.mk false None Side.left 0).

Definition leftInput (env : Env.t) (input : Input.t) (dt : number) (g : Game) : Game :=
  let wd := world g in
  let l := left g in
  let onLeft :=
    Pointer.active (Input.pointer input)
    && Side.eqb (Pointer.side (Input.pointer input)) Side.left in
  let desire := 0 in
  let desire := if Input.up input then desire - 1 else desire in
  let desire := if Input.down input then desire + 1 else desire in
  let desire :=
    if onLeft then
      let target :=
        clamp (Pointer.y (Input.pointer input) - World.padH wd * 0.5) 0
          (World.h wd - World.padH wd) in
      let dy := target - Left.y l in
      clamp (dy / (World.h wd * 0.12)) (-1) 1
    else desire in
  let desire :=
    if Mode.eqb (State.mode (state g)) Mode.attract then
      (* cozy idle drift if no input *)
      if negb (Input.up input) && negb (Input.down input) && negb onLeft then
        let idle := Math.sin (State.t' (state g) * 0.0013) * 0.55 in
        clamp idle (-1) 1
      else desire
    else desire in
  let moved := paddleMove env wd (Left.y l) (Left.vy l) dt desire in
  with_left (Left.mk (Left.x l) (fst moved) (snd moved) (Left.targetY l)) g.

(** ** main.ts: the match, the keyboard and the frame *)

Definition showOverlay (on : bool) (g : Game) : Game := emit (ShowOverlay on) g.

Definition resetMatch (env : Env.t) (g : Game) : Game :=
  let g := with_state (set_scoreR 0 (set_scoreL 0 (state g))) g in
  let g := emit (ScoreText 0 0) g in
  let g := resetRound env Mode.attract g in
  let g := setMode Mode.attract g in
  showOverlay true g.

(** What a handler asks of the browser besides changing the game. *)
Inductive BrowserCall : Type :=
| PreventDefault
| SetPointerCapture (pointerId : Z).

Definition isUpKey (key : string) : bool :=
  String.eqb key "ArrowUp" || String.eqb key "w" || String.eqb key "W".
Definition isDownKey (key : string) : bool :=
  String.eqb key "ArrowDown" || String.eqb key "s" || String.eqb key "S".

(** [onKeyDown(e)] for [e.key = key]; [rndDir] and [rndAngle] are the two
    values of [Math.random()] a serve draws, in that order. *)
Definition onKeyDown (env : Env.t) (key : string) (rndDir rndAngle : number)
  (input : Input.t) (g : Game) : Input.t * Game * list BrowserCall :=
  let input :=
    if isUpKey key then Input.mk true (Input.down input) (Input.pointer input)
    else input in
  let input :=
    if isDownKey key then Input.mk (Input.up input) true (Input.pointer input)
    else input in
  let '(g, calls) :=
    if String.eqb key " " then
      (if Mode.eqb (State.mode (state g)) Mode.play then setMode Mode.pause g
       else if Mode.eqb (State.mode (state g)) Mode.pause then setMode Mode.play g
       else g,
       [PreventDefault])
    else (g, []) in
  let g :=
    if String.eqb key "Enter" then
      if Mode.eqb (State.mode (state g)) Mode.attract then
        setMode Mode.serve (resetRound env Mode.serve (showOverlay false g))
      else if Mode.eqb (State.mode (state g)) Mode.serve then
        serve env rndAngle (if rndDir <? 0.5 then -1 else 1) g
      else if Mode.eqb (State.mode (state g)) Mode.over then
        resetMatch env (showOverlay false g)
      else g
    else g in
  let g :=
    if String.eqb key "r" || String.eqb key "R" then
      resetMatch env (emit (StartText "Start") (showOverlay true g))
    else g in
  (input, g, calls).

Definition onKeyUp (key : string) (input : Input.t) : Input.t :=
  let input :=
    if isUpKey key then Input.mk false (Input.down input) (Input.pointer input)
    else input in
  if isDownKey key then Input.mk (Input.up input) false (Input.pointer input)
  else input.

(** The part of [draw()] that changes the game: the canvas is fitted and the
    field takes its size; the painting itself only reads the game. *)
Definition draw (env : Env.t) (g : Game) : Game :=
  let g := fitCanvas env g in
  with_world (set_size (Canvas.width (canvas g)) (Canvas.height (canvas g)) (world g)) g.

(** [tick()] up to the request for the next frame; [now] and [nowAi] are the
    values of [nowMs()] read by [tick] and by [aiStep]. *)
Definition tick (env : Env.t) (now nowAi rnd : number) (input : Input.t) (g : Game) : Game :=
  let g := fitCanvas env g in
  let t := now in
  let dt := clamp ((t - State.lastT (state g)) / 1000) 0 0.032 in
  let g := with_state (set_time t (State.t' (state g) + dt * 1000) (state g)) g in
  (* Keep geometry responsive *)
  let g :=
    with_world (set_size (Canvas.width (canvas g)) (Canvas.height (canvas g)) (world g)) g in
  let g := leftInput env input dt g in
  let g := aiStep env nowAi rnd dt g in
  let g := ballStep env dt g in
  draw env g.

(** ** main.ts: the pointer *)

Module PointerEvent.
Record t : Type := mk { pointerId : Z; clientX : number; clientY : number }.
End PointerEvent.

(** [rectLeft] and [rectTop] are the [left] and [top] of
    [canvas.getBoundingClientRect()]; its width is in the environment. *)
Definition pointerToLocalY (env : Env.t) (rectTop : number) (ev : PointerEvent.t) (g : Game)
  : number :=
  let y := (PointerEvent.clientY ev - rectTop) * DPR env in
  clamp y 0 (Canvas.height (canvas g)).

Definition pointerToSide (env : Env.t) (rectLeft : number) (ev : PointerEvent.t) : Side.t :=
  let x := (PointerEvent.clientX ev - rectLeft) / Env.rectWidth env in
  if x <? 0.5 then Side.left else Side.right.

(** [ev.pointerId !== input.pointer.id]. *)
Definition otherPointer (ev : PointerEvent.t) (input : Input.t) : bool :=
  match Pointer.id (Input.pointer input) with
  | Some i => negb (Z.eqb (PointerEvent.pointerId ev) i)
  | None => true
  end.

Definition onPointerDown (env : Env.t) (rectLeft rectTop : number) (ev : PointerEvent.t)
  (rndDir rndAngle : number) (input : Input.t) (g : Game)
  : Input.t * Game * list BrowserCall :=
  let input :=
    Input.mk (Input.up input) (Input.down input)
      (Pointer.mk true (Some (PointerEvent.pointerId ev))
         (pointerToSide env rectLeft ev) (pointerToLocalY env rectTop ev g)) in
  let g :=
    if Mode.eqb (State.mode (state g)) Mode.attract then
      (* Let taps start quickly *)
      setMode Mode.serve (resetRound env Mode.serve (showOverlay false g))
    else if Mode.eqb (State.mode (state g)) Mode.serve then
      (* Tap to serve (mobile friendly) *)
      serve env rndAngle (if rndDir <? 0.5 then -1 else 1) g
    else g in
  (input, g, [SetPointerCapture (PointerEvent.pointerId ev)]).

Definition onPointerMove (env : Env.t) (rectTop : number) (ev : PointerEvent.t)
  (input : Input.t) (g : Game) : Input.t :=
  let p := Input.pointer input in
  if negb (Pointer.active p) || otherPointer ev input then input
  else
    Input.mk (Input.up input) (Input.down input)
      (Pointer.mk (Pointer.active p) (Pointer.id p) (Pointer.side p)
         (pointerToLocalY env rectTop ev g)).

Definition onPointerUp (ev : PointerEvent.t) (input : Input.t) : Input.t :=
  let p := Input.pointer input in
  if otherPointer ev input then input
  else
    Input.mk (Input.up input) (Input.down input)
      (Pointer.mk false None (Pointer.side p) (Pointer.y p)).

(** ** Notions the statements below are phrased with *)

(** An axis-aligned box by its bounds, the two boxes [resolvePaddleHit]
    compares, and when two boxes are disjoint: apart along [x] or along [y]. *)
Module Box.
Record t : Type := mk { x0 : number; x1 : number; y0 : number; y1 : number }.
End Box.

Definition paddleBox (p : Paddle.t) : Box.t :=
  Box.mk (Paddle.x p) (Paddle.x p + Paddle.w p) (Paddle.y p) (Paddle.y p + Paddle.h p).

Definition ballBox (b : Ball.t) : Box.t :=
  Box.mk (Ball.x b - Ball.r b) (Ball.x b + Ball.r b) (Ball.y b - Ball.r b) (Ball.y b + Ball.r b).

Definition disjoint (a b : Box.t) : Prop :=
  Box.x1 a < Box.x0 b \/ Box.x1 b < Box.x0 a \/ Box.y1 a < Box.y0 b \/ Box.y1 b < Box.y0 a.

Definition inBox (a : Box.t) (qx qy : number) : Prop :=
  Box.x0 a <= qx <= Box.x1 a /\ Box.y0 a <= qy <= Box.y1 a.

Definition proper (a : Box.t) : Prop := Box.x0 a <= Box.x1 a /\ Box.y0 a <= Box.y1 a.

(** The speed of a ball: the magnitude of its velocity. *)
Definition speedOf (vx vy : number) : number := Math.hypot vx vy.

Definition ballSpeed (b : BallObj.t) : number := speedOf (BallObj.vx b) (BallObj.vy b).

(** The angle and the speed [resolvePaddleHit] sends the ball off with (the
    values of its [ang] and [newSpeed]); the angle is the source's for a
    paddle height and a [dpr] that are not zero. *)
Definition hitAngle (p : Paddle.t) (b : Ball.t) (dpr : number) : number :=
  let impact := (Ball.y b - (Paddle.y p + Paddle.h p * 0.5)) / (Paddle.h p * 0.5) in
  let spin := clamp ((Paddle.vy p / (1150 * dpr)) * 0.55) (-0.55) 0.55 in
  clamp (impact * 0.75 + spin) (-0.95) 0.95.

Definition hitSpeed (b : Ball.t) (speedUp maxSpeed dpr : number) : number :=
  Math.min (speedOf (Ball.vx b) (Ball.vy b) * speedUp) (maxSpeed * dpr).

(** The difficulty in force is one of the three presets. *)
Definition preset (d : DifficultyConfig.t) : Prop := In d DiffOrder.

(** The field as [resetRound] lays it out: a ball and paddles of positive
    size, and both paddles inside the field. *)
Definition layout_ok (g : Game) : Prop :=
  let wd := world g in
  0 < World.w wd /\ 0 < World.ballR wd /\ 0 < World.padW wd /\ 0 < World.padH wd /\
  0 <= Left.x (left g) /\ Left.x (left g) + World.padW wd <= World.w wd /\
  0 <= Right.x (right g) /\ Right.x (right g) + World.padW wd <= World.w wd.


(** The argument object [hitPaddle] hands to [resolvePaddleHit]. *)
Definition hitPaddleOpts (env : Env.t) (px py pvy : number) (isLeft : bool) (g : Game)
  : Opts.t :=
  Opts.mk
    (Paddle.mk px py pvy (World.padW (world g)) (World.padH (world g)))
    (Ball.mk (BallObj.x (ball g)) (BallObj.y (ball g)) (BallObj.vx (ball g))
       (BallObj.vy (ball g)) (World.ballR (world g)))
    isLeft
    (DifficultyConfig.speedUp (State.diff (state g)))
    1780
    (DPR env).

(** A round that has just been reset: the ball rests at the centre of the
    field and both paddles rest at mid-height. *)
Definition roundStart (g : Game) : Prop :=
  let wd := world g in
  BallObj.x (ball g) = World.w wd * 0.5 /\ BallObj.y (ball g) = World.h wd * 0.5 /\
  BallObj.vx (ball g) = 0 /\ BallObj.vy (ball g) = 0 /\
  Left.y (left g) = (World.h wd - World.padH wd) * 0.5 /\ Left.vy (left g) = 0 /\
  Right.y (right g) = (World.h wd - World.padH wd) * 0.5 /\ Right.vy (right g) = 0.


(** ** Inputs the statements are tried on *)

(** The three calls of the repository's physics tests. *)
Definition missExample : Opts.t :=
  Opts.mk (Paddle.mk 20 20 0 10 50) (Ball.mk 200 200 (-100) 0 5) true 1.05 1780 1.

Definition leftHitExample : Opts.t :=
  Opts.mk (Paddle.mk 20 100 0 10 80) (Ball.mk 29 140 (-400) 0 6) true 1.0 1780 1.

Definition rightHitExample : Opts.t :=
  Opts.mk (Paddle.mk 200 100 0 10 80) (Ball.mk 211 140 400 0 6) false 1.0 1780 1.

(** The left-paddle call again, with a ball that is not moving. *)
Definition restingBallExample : Opts.t :=
  Opts.mk (Paddle.mk 20 100 0 10 80) (Ball.mk 29 140 0 0 6) true 1.05 1780 1.

(** The left-paddle call again, with a negative speed-up factor. *)
Definition negativeSpeedUpExample : Opts.t :=
  Opts.mk (Paddle.mk 20 100 0 10 80) (Ball.mk 29 140 (-400) 0 6) true (-1) 1780 1.

(** A browser at device pixel ratio 1 showing a 960 by 540 canvas, and games
    on the source's default field with the Normal preset, in play. *)
Definition env1 : Env.t := Env.mk 1 960 540.

Definition gameInPlay (scoreL scoreR : Z) (b : BallObj.t) : Game :=
  mkGame
    (State.mk Mode.play Difficulty.Normal true scoreL scoreR 11 0 0)
    (World.mk 960 540 16 108 36 9.5 5 18)
    (Left.mk 36 216 0 None)
    (Right.mk 908 216 0 None 0)
    b
    (Canvas.mk 960 540)
    [].

(** The ball over the left paddle, moving left. *)
Definition ballAtLeftPaddle : BallObj.t := BallObj.mk 50 270 (-900) 0 0.

(** The ball past the right paddle, about to leave the field. *)
Definition ballLeavingRight : BallObj.t := BallObj.mk 975 270 900 0 0.

(** * Facts *)

(** ** Comparisons *)

Lemma ltb_true (a b : number) : (a <? b) = true <-> a < b.
Proof. unfold ltb. destruct (Rlt_dec a b); split; intros; try easy; lra. Qed.

Lemma ltb_false (a b : number) : (a <? b) = false <-> b <= a.
Proof. unfold ltb. destruct (Rlt_dec a b); split; intros; try easy; lra. Qed.

Lemma leb_true (a b : number) : (a <=? b) = true <-> a <= b.
Proof. unfold leb. destruct (Rle_dec a b); split; intros; try easy; lra. Qed.

Lemma leb_false (a b : number) : (a <=? b) = false <-> b < a.
Proof. unfold leb. destruct (Rle_dec a b); split; intros; try easy; lra. Qed.

Lemma gtb_true (a b : number) : (a >? b) = true <-> b < a.
Proof. apply ltb_true. Qed.

Lemma gtb_false (a b : number) : (a >? b) = false <-> a <= b.
Proof. apply ltb_false. Qed.

(** Decide every comparison in sight, then finish by linear arithmetic. *)
Ltac cmp :=
  unfold gtb, geb, ltb, leb, eqb, Math.max, Math.min, Rmax, Rmin in *;
  repeat match goal with
    | |- context [Rlt_dec ?a ?b] => destruct (Rlt_dec a b)
    | |- context [Rle_dec ?a ?b] => destruct (Rle_dec a b)
    | |- context [Req_dec_T ?a ?b] => destruct (Req_dec_T a b)
    | H : context [Rlt_dec ?a ?b] |- _ => destruct (Rlt_dec a b)
    | H : context [Rle_dec ?a ?b] |- _ => destruct (Rle_dec a b)
    | H : context [Req_dec_T ?a ?b] |- _ => destruct (Req_dec_T a b)
    end;
  simpl in *; try discriminate; try reflexivity; try lra.

(** ** clamp *)

Lemma clamp_bounds (v lo hi : number) : lo <= hi -> lo <= clamp v lo hi <= hi.
Proof. intros H. unfold clamp. cmp. Qed.

Lemma clamp_inside (v lo hi : number) : lo <= v <= hi -> clamp v lo hi = v.
Proof. intros H. unfold clamp. cmp. Qed.

(** C10: with the bounds the wrong way round ([lo > hi]) [clamp] still
    returns, and what it returns is the lower-bound argument [lo], whatever
    [v] is. *)
Theorem clamp_inverted_bounds (v lo hi : number) : lo > hi -> clamp v lo hi = lo.
Proof.
  intros Hinv. unfold clamp, Math.max, Math.min.
  apply Rmax_left.
  apply Rle_trans with hi; [apply Rmin_l | lra].
Qed.

Lemma clamp_inverted_bounds_witness :
  clamp 3 5 1 = 5 /\ clamp 7 5 1 = 5 /\ clamp (-2) 5 1 = 5.
Proof.
  repeat split; apply clamp_inverted_bounds; lra.
Defined.

(** ** lerp and sign *)

Lemma lerp_ends (a b : number) : lerp a b 0 = a /\ lerp a b 1 = b.
Proof. unfold lerp. split; ring. Qed.

(** [sign] has two values; zero counts as positive. *)
Lemma sign_values (v : number) :
  (v < 0 -> sign v = -1) /\ (0 <= v -> sign v = 1).
Proof. unfold sign. split; intros H; cmp. Qed.

(** ** The remainder operator *)

Lemma trunc_small (x : number) : -1 < x < 1 -> trunc x = 0%Z.
Proof.
  intros [Hlo Hhi]. unfold trunc.
  destruct (Rle_dec 0 x) as [Hx | Hx].
  - symmetry. apply Int_part_spec. simpl. lra.
  - assert (Int_part (- x) = 0%Z) as ->; [| reflexivity].
    symmetry. apply Int_part_spec. simpl. lra.
Qed.

Lemma trunc_one (x : number) : 1 <= x < 2 -> trunc x = 1%Z.
Proof.
  intros [Hlo Hhi]. unfold trunc.
  destruct (Rle_dec 0 x) as [Hx | Hx]; [| lra].
  symmetry. apply Int_part_spec. simpl. lra.
Qed.

(** A dividend strictly between [-p] and [p] is its own remainder. *)
Lemma rem_small (a p : number) : 0 < p -> - p < a < p -> a rem p = a.
Proof.
  intros Hp [Hlo Hhi]. unfold remainder.
  rewrite trunc_small; [simpl; ring |].
  split.
  - apply Rmult_lt_reg_r with p; [lra |].
    unfold Rdiv. rewrite Rmult_assoc, Rinv_l by lra. lra.
  - apply Rmult_lt_reg_r with p; [lra |].
    unfold Rdiv. rewrite Rmult_assoc, Rinv_l by lra. lra.
Qed.

(** A dividend in [[p, 2p)] loses one [p]. *)
Lemma rem_once (a p : number) : 0 < p -> p <= a < 2 * p -> a rem p = a - p.
Proof.
  intros Hp [Hlo Hhi]. unfold remainder.
  rewrite trunc_one; [simpl; ring |].
  split.
  - apply Rmult_le_reg_r with p; [lra |].
    unfold Rdiv. rewrite Rmult_assoc, Rinv_l by lra. lra.
  - apply Rmult_lt_reg_r with p; [lra |].
    unfold Rdiv. rewrite Rmult_assoc, Rinv_l by lra. lra.
Qed.

(** The reduction step of [foldYReflect], [((v % p) + p) % p], on the three
    stretches the reflection cases fall in. *)
Lemma reduce_inside (v p : number) :
  0 < p -> 0 <= v < p -> ((v rem p) + p) rem p = v.
Proof.
  intros Hp Hv. rewrite (rem_small v p) by lra. rewrite rem_once by lra. ring.
Qed.

Lemma reduce_below (v p : number) :
  0 < p -> - p < v < 0 -> ((v rem p) + p) rem p = v + p.
Proof.
  intros Hp Hv. rewrite (rem_small v p) by lra. apply rem_small; lra.
Qed.

Lemma reduce_period (p : number) : 0 < p -> ((p rem p) + p) rem p = 0.
Proof.
  intros Hp. rewrite (rem_once p p) by lra.
  replace (p - p + p) with p by ring. rewrite rem_once by lra. ring.
Qed.

(** Truncation drops the fractional part, toward zero. *)
Lemma trunc_bounds (x : number) :
  (0 <= x -> IZR (trunc x) <= x < IZR (trunc x) + 1) /\
  (x < 0 -> x <= IZR (trunc x) < x + 1).
Proof.
  unfold trunc. destruct (Rle_dec 0 x) as [Hx | Hx]; split; intros H; try lra.
  - destruct (base_Int_part x). lra.
  - destruct (base_Int_part (- x)). rewrite opp_IZR. lra.
Qed.

(** The remainder is smaller than the divisor and has the dividend's sign. *)
Lemma rem_bounds (a p : number) :
  0 < p ->
  (0 <= a -> 0 <= a rem p < p) /\ (a < 0 -> - p < a rem p <= 0).
Proof.
  intros Hp. unfold remainder.
  assert (a = p * (a / p)) as Ha by (field; lra).
  destruct (trunc_bounds (a / p)) as [Hpos Hneg].
  split; intros Hsign.
  - assert (0 <= a / p) as Hq
      by (apply Rmult_le_pos; [lra | left; apply Rinv_0_lt_compat; lra]).
    specialize (Hpos Hq). nra.
  - assert (a / p < 0) as Hq.
    { unfold Rdiv. pose proof (Rinv_0_lt_compat p Hp). nra. }
    specialize (Hneg Hq). nra.
Qed.

(** The floor-style reduction [((v % p) + p) % p] lands in [[0, p)]. *)
Lemma reduce_bounds (v p : number) : 0 < p -> 0 <= ((v rem p) + p) rem p < p.
Proof.
  intros Hp. destruct (rem_bounds v p Hp) as [Hpos Hneg].
  apply rem_bounds; [assumption |].
  destruct (Rle_dec 0 v) as [Hv | Hv].
  - specialize (Hpos Hv). lra.
  - assert (v < 0) as Hv' by lra. specialize (Hneg Hv'). lra.
Qed.

(** ** foldYReflect *)

(** C8: on a degenerate field ([maxY - minY <= 0]) [foldYReflect] returns
    [minY], for every [y]. *)
Theorem foldYReflect_degenerate (y minY maxY : number) :
  maxY - minY <= 0 -> foldYReflect y minY maxY = minY.
Proof.
  intros Hspan. unfold foldYReflect.
  apply leb_true in Hspan. rewrite Hspan. reflexivity.
Qed.

Lemma foldYReflect_degenerate_witness :
  foldYReflect 7 10 10 = 10 /\ foldYReflect 123 10 4 = 10.
Proof.
  split; apply foldYReflect_degenerate; lra.
Defined.

(** The body of [foldYReflect] once the span is known to be positive. *)
Lemma foldYReflect_positive_span (y minY maxY : number) :
  0 < maxY - minY ->
  foldYReflect y minY maxY =
    (let span := maxY - minY in
     let period := 2 * span in
     let v := (((y - minY) rem period) + period) rem period in
     (if v >? span then period - v else v) + minY).
Proof.
  intros Hspan. unfold foldYReflect.
  apply leb_false in Hspan. rewrite Hspan. reflexivity.
Qed.

Lemma foldYReflect_inside (y minY maxY : number) :
  0 < maxY - minY -> minY <= y <= maxY -> foldYReflect y minY maxY = y.
Proof.
  intros Hspan Hy. rewrite foldYReflect_positive_span by assumption. cbv zeta.
  rewrite reduce_inside by lra.
  assert ((y - minY >? maxY - minY) = false) as -> by (apply gtb_false; lra).
  ring.
Qed.

Lemma foldYReflect_above (k minY maxY : number) :
  0 < k <= maxY - minY -> foldYReflect (maxY + k) minY maxY = maxY - k.
Proof.
  intros Hk. rewrite foldYReflect_positive_span by lra. cbv zeta.
  destruct (Rle_lt_or_eq_dec k (maxY - minY) (proj2 Hk)) as [Hlt | Heq].
  - rewrite reduce_inside by lra.
    assert ((maxY + k - minY >? maxY - minY) = true) as -> by (apply gtb_true; lra).
    ring.
  - replace (maxY + k - minY) with (2 * (maxY - minY)) by lra.
    rewrite reduce_period by lra.
    assert ((0 >? maxY - minY) = false) as -> by (apply gtb_false; lra).
    lra.
Qed.

Lemma foldYReflect_below (k minY maxY : number) :
  0 < k <= maxY - minY -> foldYReflect (minY - k) minY maxY = minY + k.
Proof.
  intros Hk. rewrite foldYReflect_positive_span by lra. cbv zeta.
  rewrite reduce_below by lra.
  destruct (Rle_lt_or_eq_dec k (maxY - minY) (proj2 Hk)) as [Hlt | Heq].
  - assert ((minY - k - minY + 2 * (maxY - minY) >? maxY - minY) = true) as ->
      by (apply gtb_true; lra).
    ring.
  - assert ((minY - k - minY + 2 * (maxY - minY) >? maxY - minY) = false) as ->
      by (apply gtb_false; lra).
    lra.
Qed.

(** Whatever [y] is, the fold lands in [[minY, maxY]]. *)
Lemma foldYReflect_range (y minY maxY : number) :
  0 < maxY - minY -> minY <= foldYReflect y minY maxY <= maxY.
Proof.
  intros Hspan. rewrite foldYReflect_positive_span by assumption. cbv zeta.
  pose proof (reduce_bounds (y - minY) (2 * (maxY - minY))) as Hv.
  set (v := (((y - minY) rem (2 * (maxY - minY))) + 2 * (maxY - minY))
              rem (2 * (maxY - minY))) in *.
  assert (0 <= v < 2 * (maxY - minY)) as [Hlo Hhi] by (apply Hv; lra).
  unfold gtb, ltb. destruct (Rlt_dec (maxY - minY) v); lra.
Qed.

(** C1: with a positive span, [foldYReflect] leaves every [y] of
    [[minY, maxY]] as it is, sends [maxY + k] to [maxY - k] and sends
    [minY - k] to [minY + k], for every [k] with [0 < k <= span]. *)
Theorem foldYReflect_reflects (minY maxY : number) :
  maxY - minY > 0 ->
  (forall y, minY <= y <= maxY -> foldYReflect y minY maxY = y) /\
  (forall k, 0 < k <= maxY - minY -> foldYReflect (maxY + k) minY maxY = maxY - k) /\
  (forall k, 0 < k <= maxY - minY -> foldYReflect (minY - k) minY maxY = minY + k).
Proof.
  intros Hspan. repeat split.
  - intros y Hy. apply foldYReflect_inside; lra.
  - intros k Hk. apply foldYReflect_above; lra.
  - intros k Hk. apply foldYReflect_below; lra.
Qed.

Lemma foldYReflect_reflects_witness :
  foldYReflect 5 0 10 = 5 /\
  foldYReflect (10 + 1) 0 10 = 10 - 1 /\
  foldYReflect (0 - 2) 0 10 = 0 + 2.
Proof.
  destruct (foldYReflect_reflects 0 10 ltac:(lra)) as (Hin & Hup & Hdown).
  repeat split; [apply Hin | apply Hup | apply Hdown]; lra.
Defined.

(** ** resolvePaddleHit *)

Lemma overlap_test (p : Paddle.t) (b : Ball.t) :
  ((Ball.x b + Ball.r b <? Paddle.x p)
   || (Ball.x b - Ball.r b >? Paddle.x p + Paddle.w p)
   || (Ball.y b + Ball.r b <? Paddle.y p)
   || (Ball.y b - Ball.r b >? Paddle.y p + Paddle.h p)) = true
  <-> disjoint (ballBox b) (paddleBox p).
Proof.
  unfold disjoint, ballBox, paddleBox. simpl.
  rewrite !orb_true_iff, !ltb_true, !gtb_true. tauto.
Qed.

(** Boxes that are apart share no point, and two proper boxes that share no
    point are apart. *)
Lemma disjoint_no_common_point (a b : Box.t) :
  proper a -> proper b ->
  (disjoint a b <-> forall qx qy, ~ (inBox a qx qy /\ inBox b qx qy)).
Proof.
  unfold proper, disjoint, inBox. intros [Hax Hay] [Hbx Hby]. split.
  - intros Hd qx qy [[Hx1 Hy1] [Hx2 Hy2]]. lra.
  - intros Hnone.
    destruct (Rlt_dec (Box.x1 a) (Box.x0 b)) as [|Hn1]; [tauto |].
    destruct (Rlt_dec (Box.x1 b) (Box.x0 a)) as [|Hn2]; [tauto |].
    destruct (Rlt_dec (Box.y1 a) (Box.y0 b)) as [|Hn3]; [tauto |].
    destruct (Rlt_dec (Box.y1 b) (Box.y0 a)) as [|Hn4]; [tauto |].
    exfalso.
    apply (Hnone (Rmax (Box.x0 a) (Box.x0 b)) (Rmax (Box.y0 a) (Box.y0 b))).
    unfold Rmax.
    destruct (Rle_dec (Box.x0 a) (Box.x0 b)), (Rle_dec (Box.y0 a) (Box.y0 b)); lra.
Qed.

Lemma resolvePaddleHit_miss (opts : Opts.t) :
  disjoint (ballBox (Opts.ball opts)) (paddleBox (Opts.paddle opts)) ->
  resolvePaddleHit opts =
    HitResult.mk false (Ball.vx (Opts.ball opts)) (Ball.vy (Opts.ball opts))
      (Ball.x (Opts.ball opts)).
Proof.
  intros Hd. apply overlap_test in Hd. unfold resolvePaddleHit. cbv zeta.
  rewrite Hd. reflexivity.
Qed.

Lemma resolvePaddleHit_overlap (opts : Opts.t) :
  ~ disjoint (ballBox (Opts.ball opts)) (paddleBox (Opts.paddle opts)) ->
  resolvePaddleHit opts =
    let p := Opts.paddle opts in
    let b := Opts.ball opts in
    let ang := hitAngle p b (Opts.dpr opts) in
    let s := hitSpeed b (Opts.speedUp opts) (Opts.maxSpeed opts) (Opts.dpr opts) in
    HitResult.mk true
      (Math.cos ang * s * (if Opts.isLeft opts then 1 else -1))
      (Math.sin ang * s)
      (if Opts.isLeft opts
       then Paddle.x p + Paddle.w p + Ball.r b
       else Paddle.x p - Ball.r b).
Proof.
  intros Hd. rewrite <- overlap_test in Hd. apply not_true_is_false in Hd.
  unfold resolvePaddleHit. cbv zeta. rewrite Hd. reflexivity.
Qed.

(** A reported hit means the boxes were not apart. *)
Lemma hit_overlap (opts : Opts.t) :
  HitResult.hit (resolvePaddleHit opts) = true ->
  ~ disjoint (ballBox (Opts.ball opts)) (paddleBox (Opts.paddle opts)).
Proof.
  intros Hhit Hd. rewrite resolvePaddleHit_miss in Hhit by assumption.
  discriminate.
Qed.

(** C4: when the ball's bounding square and the paddle's rectangle are
    disjoint, [resolvePaddleHit] reports no hit and hands back the ball's
    [vx], [vy] and [x] as they came in. *)
Theorem resolvePaddleHit_disjoint_passes_through (opts : Opts.t) :
  disjoint (ballBox (Opts.ball opts)) (paddleBox (Opts.paddle opts)) ->
  HitResult.hit (resolvePaddleHit opts) = false /\
  HitResult.vx (resolvePaddleHit opts) = Ball.vx (Opts.ball opts) /\
  HitResult.vy (resolvePaddleHit opts) = Ball.vy (Opts.ball opts) /\
  HitResult.x (resolvePaddleHit opts) = Ball.x (Opts.ball opts).
Proof.
  intros Hd. rewrite resolvePaddleHit_miss by assumption. simpl. auto.
Qed.

Lemma resolvePaddleHit_disjoint_passes_through_witness :
  HitResult.hit (resolvePaddleHit missExample) = false /\
  HitResult.vx (resolvePaddleHit missExample) = -100 /\
  HitResult.vy (resolvePaddleHit missExample) = 0 /\
  HitResult.x (resolvePaddleHit missExample) = 200.
Proof.
  apply (resolvePaddleHit_disjoint_passes_through missExample).
  unfold disjoint. simpl. lra.
Defined.

(** C5: on a hit the resolved [x] is [paddle.x + paddle.w + ball.r] for the
    left paddle and [paddle.x - ball.r] for the right paddle. *)
Theorem resolvePaddleHit_resolved_x (opts : Opts.t) :
  HitResult.hit (resolvePaddleHit opts) = true ->
  HitResult.x (resolvePaddleHit opts) =
    if Opts.isLeft opts
    then Paddle.x (Opts.paddle opts) + Paddle.w (Opts.paddle opts) + Ball.r (Opts.ball opts)
    else Paddle.x (Opts.paddle opts) - Ball.r (Opts.ball opts).
Proof.
  intros Hhit. apply hit_overlap in Hhit.
  rewrite resolvePaddleHit_overlap by assumption. reflexivity.
Qed.

Lemma leftHitExample_hits : HitResult.hit (resolvePaddleHit leftHitExample) = true.
Proof.
  rewrite resolvePaddleHit_overlap; [reflexivity |].
  unfold disjoint. simpl. lra.
Qed.

Lemma rightHitExample_hits : HitResult.hit (resolvePaddleHit rightHitExample) = true.
Proof.
  rewrite resolvePaddleHit_overlap; [reflexivity |].
  unfold disjoint. simpl. lra.
Qed.

Lemma resolvePaddleHit_resolved_x_witness :
  HitResult.x (resolvePaddleHit leftHitExample) = 20 + 10 + 6 /\
  HitResult.x (resolvePaddleHit rightHitExample) = 200 - 6.
Proof.
  split.
  - apply (resolvePaddleHit_resolved_x leftHitExample leftHitExample_hits).
  - apply (resolvePaddleHit_resolved_x rightHitExample rightHitExample_hits).
Defined.

(** ** The speed and the direction after a hit *)

Lemma speedOf_nonneg (vx vy : number) : 0 <= speedOf vx vy.
Proof. unfold speedOf, Math.hypot. apply sqrt_pos. Qed.

Lemma speedOf_horizontal (v : number) : speedOf v 0 = Rabs v.
Proof.
  unfold speedOf, Math.hypot.
  replace (v * v + 0 * 0) with (Rsqr v) by (unfold Rsqr; ring).
  apply sqrt_Rsqr_abs.
Qed.

(** A velocity of polar form [(cos a * s * dir, sin a * s)], [dir] being
    [1] or [-1], has magnitude [|s|]. *)
Lemma speedOf_polar (a s : number) (isLeft : bool) :
  speedOf (Math.cos a * s * (if isLeft then 1 else -1)) (Math.sin a * s) = Rabs s.
Proof.
  unfold speedOf, Math.hypot, Math.cos, Math.sin.
  rewrite <- sqrt_Rsqr_abs. f_equal.
  pose proof (sin2_cos2 a) as H. unfold Rsqr in *.
  destruct isLeft.
  - transitivity (s * s * (sin a * sin a + cos a * cos a)); [ring | rewrite H; ring].
  - transitivity (s * s * (sin a * sin a + cos a * cos a)); [ring | rewrite H; ring].
Qed.

(** Whatever the outgoing angle is, a hit sends the ball off with speed
    [|newSpeed|]. *)
Lemma hit_speed_is_abs (opts : Opts.t) :
  HitResult.hit (resolvePaddleHit opts) = true ->
  speedOf (HitResult.vx (resolvePaddleHit opts)) (HitResult.vy (resolvePaddleHit opts))
  = Rabs (hitSpeed (Opts.ball opts) (Opts.speedUp opts) (Opts.maxSpeed opts) (Opts.dpr opts)).
Proof.
  intros Hhit. apply hit_overlap in Hhit.
  rewrite resolvePaddleHit_overlap by assumption. cbv zeta. simpl.
  apply speedOf_polar.
Qed.

Lemma hitSpeed_nonneg (b : Ball.t) (speedUp maxSpeed dpr : number) :
  0 <= speedUp -> 0 <= maxSpeed * dpr -> 0 <= hitSpeed b speedUp maxSpeed dpr.
Proof.
  intros Hs Hc. unfold hitSpeed, Math.min.
  apply Rmin_glb; [| assumption].
  apply Rmult_le_pos; [apply speedOf_nonneg | assumption].
Qed.

(** C2, amended: when the speed-up factor and the cap [maxSpeed * dpr] are
    not negative, and the paddle height and [dpr] (the divisors of the
    outgoing angle) are not zero, the speed after a hit is
    [min (oldSpeed * speedUp) (maxSpeed * dpr)]; so it never exceeds the cap
    and is [oldSpeed * speedUp] while that is below the cap. *)
Theorem resolvePaddleHit_speed (opts : Opts.t) :
  HitResult.hit (resolvePaddleHit opts) = true ->
  Paddle.h (Opts.paddle opts) <> 0 ->
  Opts.dpr opts <> 0 ->
  0 <= Opts.speedUp opts ->
  0 <= Opts.maxSpeed opts * Opts.dpr opts ->
  let res := resolvePaddleHit opts in
  let oldSpeed := speedOf (Ball.vx (Opts.ball opts)) (Ball.vy (Opts.ball opts)) in
  let cap := Opts.maxSpeed opts * Opts.dpr opts in
  speedOf (HitResult.vx res) (HitResult.vy res) = Math.min (oldSpeed * Opts.speedUp opts) cap /\
  speedOf (HitResult.vx res) (HitResult.vy res) <= cap /\
  (oldSpeed * Opts.speedUp opts < cap ->
   speedOf (HitResult.vx res) (HitResult.vy res) = oldSpeed * Opts.speedUp opts).
Proof.
  intros Hhit _ _ Hs Hc res oldSpeed cap. subst res.
  rewrite hit_speed_is_abs by assumption.
  rewrite Rabs_pos_eq by (apply hitSpeed_nonneg; assumption).
  unfold hitSpeed, Math.min. fold oldSpeed. fold cap.
  repeat split.
  - apply Rmin_r.
  - intros Hlt. apply Rmin_left. lra.
Qed.

Lemma resolvePaddleHit_speed_witness :
  speedOf (HitResult.vx (resolvePaddleHit leftHitExample))
          (HitResult.vy (resolvePaddleHit leftHitExample))
  = Math.min (speedOf (-400) 0 * 1.0) (1780 * 1).
Proof.
  apply (resolvePaddleHit_speed leftHitExample leftHitExample_hits); simpl; lra.
Defined.

(** C2 as stated fails: with a negative speed-up factor the ball leaves at
    speed 400 while [min (oldSpeed * speedUp) (maxSpeed * dpr)] is -400. *)
Lemma resolvePaddleHit_speed_negative_factor :
  HitResult.hit (resolvePaddleHit negativeSpeedUpExample) = true /\
  speedOf (HitResult.vx (resolvePaddleHit negativeSpeedUpExample))
          (HitResult.vy (resolvePaddleHit negativeSpeedUpExample)) = 400 /\
  Math.min (speedOf (-400) 0 * -1) (1780 * 1) = -400 /\
  speedOf (HitResult.vx (resolvePaddleHit negativeSpeedUpExample))
          (HitResult.vy (resolvePaddleHit negativeSpeedUpExample))
  <> Math.min
       (speedOf (Ball.vx (Opts.ball negativeSpeedUpExample))
                (Ball.vy (Opts.ball negativeSpeedUpExample))
        * Opts.speedUp negativeSpeedUpExample)
       (Opts.maxSpeed negativeSpeedUpExample * Opts.dpr negativeSpeedUpExample).
Proof.
  assert (HitResult.hit (resolvePaddleHit negativeSpeedUpExample) = true) as Hhit.
  { rewrite resolvePaddleHit_overlap; [reflexivity |]. unfold disjoint. simpl. lra. }
  assert (speedOf (-400) 0 = 400) as Hold.
  { rewrite speedOf_horizontal. rewrite Rabs_left by lra. lra. }
  assert (Math.min (speedOf (-400) 0 * -1) (1780 * 1) = -400) as Hmin.
  { rewrite Hold. unfold Math.min. rewrite Rmin_left by lra. lra. }
  assert (speedOf (HitResult.vx (resolvePaddleHit negativeSpeedUpExample))
                  (HitResult.vy (resolvePaddleHit negativeSpeedUpExample)) = 400) as Hout.
  { rewrite hit_speed_is_abs by exact Hhit.
    unfold hitSpeed, negativeSpeedUpExample. simpl.
    rewrite Hmin. rewrite Rabs_left by lra. lra. }
  split; [exact Hhit |]. split; [exact Hout |]. split; [exact Hmin |].
  rewrite Hout. simpl. rewrite Hmin. lra.
Qed.

Lemma hitAngle_bounds (p : Paddle.t) (b : Ball.t) (dpr : number) :
  -0.95 <= hitAngle p b dpr <= 0.95.
Proof. unfold hitAngle. cbv zeta. apply clamp_bounds. lra. Qed.

(** The outgoing angle stays inside [(-pi/2, pi/2)], where the cosine is
    positive. *)
Lemma hitAngle_cos_pos (p : Paddle.t) (b : Ball.t) (dpr : number) :
  0 < Math.cos (hitAngle p b dpr).
Proof.
  pose proof (hitAngle_bounds p b dpr) as [Hlo Hhi].
  pose proof PI2_1 as Hpi.
  unfold Math.cos. apply cos_gt_0; lra.
Qed.

Lemma hitSpeed_pos (b : Ball.t) (speedUp maxSpeed dpr : number) :
  0 < speedOf (Ball.vx b) (Ball.vy b) -> 0 < speedUp -> 0 < maxSpeed * dpr ->
  0 < hitSpeed b speedUp maxSpeed dpr.
Proof.
  intros Hv Hs Hc. unfold hitSpeed, Math.min.
  apply Rmin_glb_lt; [| assumption].
  apply Rmult_lt_0_compat; assumption.
Qed.

(** C3, amended: when the ball is moving, the speed-up factor is positive,
    the cap [maxSpeed * dpr] is positive (so [dpr] is not zero) and the
    paddle height is not zero, a hit returns [vx > 0] for the left paddle
    and [vx < 0] for the right paddle. *)
Theorem resolvePaddleHit_vx_sign (opts : Opts.t) :
  HitResult.hit (resolvePaddleHit opts) = true ->
  Paddle.h (Opts.paddle opts) <> 0 ->
  0 < speedOf (Ball.vx (Opts.ball opts)) (Ball.vy (Opts.ball opts)) ->
  0 < Opts.speedUp opts ->
  0 < Opts.maxSpeed opts * Opts.dpr opts ->
  if Opts.isLeft opts
  then HitResult.vx (resolvePaddleHit opts) > 0
  else HitResult.vx (resolvePaddleHit opts) < 0.
Proof.
  intros Hhit _ Hv Hs Hc. apply hit_overlap in Hhit.
  rewrite resolvePaddleHit_overlap by assumption. cbv zeta. simpl.
  pose proof (hitAngle_cos_pos (Opts.paddle opts) (Opts.ball opts) (Opts.dpr opts)) as Hcos.
  pose proof (hitSpeed_pos (Opts.ball opts) _ _ _ Hv Hs Hc) as Hspeed.
  pose proof (Rmult_lt_0_compat _ _ Hcos Hspeed) as Hprod.
  destruct (Opts.isLeft opts); lra.
Qed.

Lemma resolvePaddleHit_vx_sign_witness :
  HitResult.vx (resolvePaddleHit leftHitExample) > 0 /\
  HitResult.vx (resolvePaddleHit rightHitExample) < 0.
Proof.
  assert (speedOf (-400) 0 = 400) as Hl
    by (rewrite speedOf_horizontal, Rabs_left by lra; lra).
  assert (speedOf 400 0 = 400) as Hr
    by (rewrite speedOf_horizontal, Rabs_right by lra; lra).
  split.
  - apply (resolvePaddleHit_vx_sign leftHitExample leftHitExample_hits);
      simpl; try rewrite Hl; lra.
  - apply (resolvePaddleHit_vx_sign rightHitExample rightHitExample_hits);
      simpl; try rewrite Hr; lra.
Defined.

(** C3 as stated fails: a ball at rest that overlaps the left paddle is
    reported as a hit and leaves with [vx = 0], which is not positive. *)
Lemma resolvePaddleHit_vx_zero_at_rest :
  Opts.isLeft restingBallExample = true /\
  HitResult.hit (resolvePaddleHit restingBallExample) = true /\
  HitResult.vx (resolvePaddleHit restingBallExample) = 0 /\
  ~ HitResult.vx (resolvePaddleHit restingBallExample) > 0.
Proof.
  assert (~ disjoint (ballBox (Opts.ball restingBallExample))
            (paddleBox (Opts.paddle restingBallExample))) as Hover.
  { unfold disjoint. simpl. lra. }
  rewrite resolvePaddleHit_overlap by exact Hover. cbv zeta. simpl.
  assert (Math.cos (hitAngle (Paddle.mk 20 100 0 10 80) (Ball.mk 29 140 0 0 6) 1)
          * hitSpeed (Ball.mk 29 140 0 0 6) 1.05 1780 1 * 1 = 0) as Hvx.
  { unfold hitSpeed. simpl.
    assert (speedOf 0 0 = 0) as -> by (rewrite speedOf_horizontal; apply Rabs_R0).
    unfold Math.min. rewrite Rmin_left by lra. ring. }
  rewrite Hvx. repeat split. lra.
Qed.

(** ** The game: difficulty and device pixel ratio *)

Lemma preset_speedUp (d : DifficultyConfig.t) :
  preset d -> 1 <= DifficultyConfig.speedUp d.
Proof.
  unfold preset, DiffOrder. simpl.
  intros [<- | [<- | [<- | []]]]; simpl; lra.
Qed.

Lemma DPR_range (env : Env.t) : 1 <= DPR env <= 2.5.
Proof. unfold DPR. cmp. Qed.

Lemma cycleDifficulty_preset (g : Game) : preset (State.diff (state (cycleDifficulty g))).
Proof.
  unfold cycleDifficulty.
  set (same := fun d => String.eqb (DifficultyConfig.label d)
                 (DifficultyConfig.label (State.diff (state g)))).
  unfold DiffOrder at 1. cbn [findIndex].
  destruct (same Difficulty.Easy); [| destruct (same Difficulty.Normal);
    [| destruct (same Difficulty.Hard)]];
    unfold setDifficulty, preset, DiffOrder; simpl; auto.
Qed.

Lemma DPR_env1 : DPR env1 = 1.
Proof. unfold DPR, env1, orElse. simpl. cmp. Qed.

(** ** The game: paddle hits *)

(** [hitPaddle] reports a hit exactly when [resolvePaddleHit] does, and then
    the ball takes the resolved [x] and the new velocity. *)
Lemma hitPaddle_spec (env : Env.t) (px py pvy : number) (isLeft : bool) (g : Game) :
  let res := resolvePaddleHit (hitPaddleOpts env px py pvy isLeft g) in
  hitPaddle env px py pvy isLeft g =
    if HitResult.hit res
    then (emit (Sfx SndHit)
            (with_ball
               (BallObj.mk (HitResult.x res) (BallObj.y (ball g))
                  (HitResult.vx res) (HitResult.vy res) 1) g),
          true)
    else (g, false).
Proof.
  cbv zeta. unfold hitPaddle. cbv zeta. fold (hitPaddleOpts env px py pvy isLeft g).
  match goal with |- (if ?c then _ else _) = _ => destruct c eqn:Hc end.
  - assert (disjoint (ballBox (Opts.ball (hitPaddleOpts env px py pvy isLeft g)))
              (paddleBox (Opts.paddle (hitPaddleOpts env px py pvy isLeft g)))) as Hd
      by (apply overlap_test; exact Hc).
    rewrite resolvePaddleHit_miss by exact Hd. reflexivity.
  - destruct (HitResult.hit (resolvePaddleHit (hitPaddleOpts env px py pvy isLeft g)));
      reflexivity.
Qed.

Lemma hitPaddle_hit (env : Env.t) (px py pvy : number) (isLeft : bool) (g : Game) :
  snd (hitPaddle env px py pvy isLeft g) = true ->
  let res := resolvePaddleHit (hitPaddleOpts env px py pvy isLeft g) in
  HitResult.hit res = true /\
  ball (fst (hitPaddle env px py pvy isLeft g)) =
    BallObj.mk (HitResult.x res) (BallObj.y (ball g)) (HitResult.vx res) (HitResult.vy res) 1.
Proof.
  cbv zeta. rewrite hitPaddle_spec. cbv zeta.
  destruct (HitResult.hit (resolvePaddleHit (hitPaddleOpts env px py pvy isLeft g)));
    simpl; [auto | discriminate].
Qed.

(** The speed a hit in the game sends the ball off with. *)
Lemma hitPaddle_outgoing (env : Env.t) (px py pvy : number) (isLeft : bool) (g : Game) :
  preset (State.diff (state g)) ->
  snd (hitPaddle env px py pvy isLeft g) = true ->
  ballSpeed (ball (fst (hitPaddle env px py pvy isLeft g))) =
    Rmin (ballSpeed (ball g) * DifficultyConfig.speedUp (State.diff (state g)))
         (1780 * DPR env).
Proof.
  intros Hpre Hhit. destruct (hitPaddle_hit _ _ _ _ _ _ Hhit) as [Hres Hball].
  rewrite Hball. unfold ballSpeed at 1. simpl.
  rewrite hit_speed_is_abs by exact Hres.
  pose proof (preset_speedUp _ Hpre) as Hup.
  pose proof (DPR_range env) as Hdpr.
  rewrite Rabs_pos_eq.
  - reflexivity.
  - apply hitSpeed_nonneg; simpl; lra.
Qed.

(** C6: in the game (difficulty one of the presets, cap [1780 * DPR]), a
    paddle hit never slows the ball down unless it came in above the cap:
    the outgoing speed is at least the incoming speed whenever the incoming
    speed is at most [1780 * DPR], in particular whenever it is at most
    [maxSpeed = 1780]; and the outgoing speed is at most the cap. *)
Theorem hitPaddle_speed_nondecreasing
  (env : Env.t) (px py pvy : number) (isLeft : bool) (g : Game) :
  preset (State.diff (state g)) ->
  snd (hitPaddle env px py pvy isLeft g) = true ->
  let incoming := ballSpeed (ball g) in
  let outgoing := ballSpeed (ball (fst (hitPaddle env px py pvy isLeft g))) in
  (incoming <= 1780 * DPR env -> incoming <= outgoing) /\
  (incoming <= 1780 -> incoming <= outgoing) /\
  outgoing <= 1780 * DPR env.
Proof.
  intros Hpre Hhit incoming outgoing. subst outgoing.
  rewrite hitPaddle_outgoing by assumption. fold incoming.
  pose proof (preset_speedUp _ Hpre) as Hup.
  pose proof (DPR_range env) as Hdpr.
  assert (0 <= incoming) as Hin by apply speedOf_nonneg.
  assert (incoming <= incoming * DifficultyConfig.speedUp (State.diff (state g))) as Hmore
    by nra.
  repeat split.
  - intros Hcap. apply Rmin_glb; lra.
  - intros Hcap. apply Rmin_glb; lra.
  - apply Rmin_r.
Qed.

Lemma gameInPlay_left_hit :
  snd (hitPaddle env1 36 216 0 true (gameInPlay 0 0 ballAtLeftPaddle)) = true.
Proof.
  rewrite hitPaddle_spec. cbv zeta.
  rewrite resolvePaddleHit_overlap; [reflexivity |].
  unfold disjoint. simpl. lra.
Qed.

Lemma hitPaddle_speed_nondecreasing_witness :
  ballSpeed ballAtLeftPaddle
  <= ballSpeed (ball (fst (hitPaddle env1 36 216 0 true (gameInPlay 0 0 ballAtLeftPaddle)))).
Proof.
  apply (hitPaddle_speed_nondecreasing env1 36 216 0 true (gameInPlay 0 0 ballAtLeftPaddle)).
  - unfold preset, DiffOrder. simpl. auto.
  - exact gameInPlay_left_hit.
  - simpl. unfold ballSpeed. simpl. rewrite speedOf_horizontal, Rabs_left by lra. lra.
Defined.

(** ** The game: laying out a round *)

Lemma round_bounds (x : number) : x - 0.5 < Math.round x <= x + 0.5.
Proof.
  unfold Math.round. destruct (base_Int_part (x + 0.5)) as [Hle Hgt]. lra.
Qed.

Lemma fitCanvas_spec (env : Env.t) (g : Game) :
  fitCanvas env g =
    with_canvas
      (Canvas.mk (Math.max 320 (Math.floor (Env.rectWidth env * DPR env)))
                 (Math.max 240 (Math.floor (Env.rectHeight env * DPR env)))) g.
Proof.
  unfold fitCanvas. cbv zeta. unfold eqb.
  destruct (Req_dec_T (Canvas.width (canvas g)) _) as [Hw | Hw]; simpl; [| reflexivity].
  destruct (Req_dec_T (Canvas.height (canvas g)) _) as [Hh | Hh]; simpl; [| reflexivity].
  rewrite <- Hw, <- Hh. destruct g as [s wd l r b [cw ch] f]. reflexivity.
Qed.

Lemma fitCanvas_width (env : Env.t) (g : Game) :
  320 <= Canvas.width (canvas (fitCanvas env g)).
Proof. rewrite fitCanvas_spec. simpl. unfold Math.max. apply Rmax_l. Qed.

(** [resetRound] changes the mode and nothing else of [state]. *)
Lemma resetRound_state (env : Env.t) (mode : Mode.t) (g : Game) :
  state (resetRound env mode g) = set_mode mode (state g).
Proof. unfold resetRound. rewrite fitCanvas_spec. reflexivity. Qed.

Lemma resetRound_roundStart (env : Env.t) (mode : Mode.t) (g : Game) :
  roundStart (resetRound env mode g).
Proof. unfold roundStart, resetRound. simpl. repeat split. Qed.

(** Every round starts on a well-laid-out field. *)
Lemma resetRound_layout_ok (env : Env.t) (mode : Mode.t) (g : Game) :
  layout_ok (resetRound env mode g).
Proof.
  unfold layout_ok, resetRound. cbv zeta. simpl.
  pose proof (fitCanvas_width env g) as Hw.
  set (w := Canvas.width (canvas (fitCanvas env g))) in *.
  pose proof (round_bounds (w * 0.016)) as HpadW.
  pose proof (round_bounds (w * 0.04)) as Hinset.
  pose proof (round_bounds (w * 0.010)) as HballR.
  set (h := Canvas.height (canvas (fitCanvas env g))).
  pose proof (round_bounds (h * 0.20)) as HpadH.
  unfold Math.max, Rmax.
  repeat match goal with |- context [Rle_dec ?a ?b] => destruct (Rle_dec a b) end;
    repeat split; lra.
Qed.

(** ** The game: the ball step and scoring *)

(** Moving the ball touches the ball only; its [x] advances by [vx * dt]
    and its [vx] stays. *)
Lemma ballMove_frame (dt : number) (g : Game) :
  state (ballMove dt g) = state g /\ world (ballMove dt g) = world g /\
  left (ballMove dt g) = left g /\ right (ballMove dt g) = right g /\
  BallObj.x (ball (ballMove dt g)) = BallObj.x (ball g) + BallObj.vx (ball g) * dt /\
  BallObj.vx (ball (ballMove dt g)) = BallObj.vx (ball g).
Proof.
  unfold ballMove. cbv zeta.
  destruct (_ <? _); [| destruct (_ >? _)]; simpl; repeat split.
Qed.

(** A wall bounce keeps the speed. *)
Lemma ballMove_speed (dt : number) (g : Game) :
  ballSpeed (ball (ballMove dt g)) = ballSpeed (ball g).
Proof.
  assert (forall v, Rabs v * Rabs v = v * v) as Hsq.
  { intros v. unfold Rabs. destruct (Rcase_abs v); ring. }
  unfold ballMove. cbv zeta.
  destruct (_ <? _); [| destruct (_ >? _)]; simpl; try reflexivity;
    unfold ballSpeed, speedOf, Math.hypot, Math.abs; simpl; f_equal.
  - rewrite Hsq. reflexivity.
  - replace (- Rabs (BallObj.vy (ball g)) * - Rabs (BallObj.vy (ball g)))
      with (Rabs (BallObj.vy (ball g)) * Rabs (BallObj.vy (ball g))) by ring.
    rewrite Hsq. reflexivity.
Qed.

(** A paddle the ball has wholly passed on the right is not hit. *)
Lemma hitPaddle_passed (env : Env.t) (px py pvy : number) (isLeft : bool) (g : Game) :
  px + World.padW (world g) < BallObj.x (ball g) - World.ballR (world g) ->
  hitPaddle env px py pvy isLeft g = (g, false).
Proof.
  intros Hpast. rewrite hitPaddle_spec. cbv zeta.
  rewrite resolvePaddleHit_miss; [reflexivity |].
  unfold disjoint, hitPaddleOpts. simpl. lra.
Qed.


(** Outside play the ball step only lets the ball drift. *)
Lemma ballStep_idle (env : Env.t) (dt : number) (g : Game) :
  State.mode (state g) <> Mode.play ->
  state (ballStep env dt g) = state g /\ world (ballStep env dt g) = world g /\
  left (ballStep env dt g) = left g /\ right (ballStep env dt g) = right g /\
  fx (ballStep env dt g) = fx g.
Proof.
  intros Hmode. unfold ballStep.
  destruct (State.mode (state g)); simpl; try (repeat split; reflexivity).
  contradiction.
Qed.





(** ** The game: what every state met in play satisfies *)

Lemma layout_ok_ext (g g' : Game) :
  world g' = world g -> left g' = left g -> right g' = right g ->
  layout_ok g -> layout_ok g'.
Proof. unfold layout_ok. intros -> -> ->. auto. Qed.

Lemma hitPaddle_frame (env : Env.t) (px py pvy : number) (isLeft : bool) (g : Game) :
  state (fst (hitPaddle env px py pvy isLeft g)) = state g /\
  world (fst (hitPaddle env px py pvy isLeft g)) = world g /\
  left (fst (hitPaddle env px py pvy isLeft g)) = left g /\
  right (fst (hitPaddle env px py pvy isLeft g)) = right g.
Proof.
  rewrite hitPaddle_spec. cbv zeta.
  destruct (HitResult.hit _); simpl; repeat split.
Qed.

(** Scoring keeps the difficulty and leaves a well-laid-out field. *)
Lemma score_invariant (env : Env.t) (side : ScoreSide.t) (g : Game) :
  layout_ok g ->
  layout_ok (score env side g) /\
  State.diff (state (score env side g)) = State.diff (state g).
Proof.
  intros Hlay. unfold score. cbv zeta.
  destruct side; simpl;
    match goal with |- context [if ?c then _ else _] => destruct c end;
    (split; [first [apply resetRound_layout_ok | exact Hlay]
            | try rewrite resetRound_state; reflexivity]).
Qed.

(** A ball step keeps the field well laid out and the difficulty a preset. *)
Lemma ballStep_invariant (env : Env.t) (dt : number) (g : Game) :
  layout_ok g -> preset (State.diff (state g)) ->
  layout_ok (ballStep env dt g) /\ preset (State.diff (state (ballStep env dt g))).
Proof.
  intros Hlay Hpre.
  destruct (Mode.eqb (State.mode (state g)) Mode.play) eqn:Hmode.
  - unfold ballStep. rewrite Hmode. simpl negb. cbv iota zeta.
    destruct (ballMove_frame dt g) as (Hs & Hw & Hl & Hr & _).
    set (g1 := ballMove dt g) in *.
    set (g2 := if BallObj.vx (ball g1) <? 0
               then fst (hitPaddle env (Left.x (left g1)) (Left.y (left g1))
                           (Left.vy (left g1)) true g1)
               else fst (hitPaddle env (Right.x (right g1)) (Right.y (right g1))
                           (Right.vy (right g1)) false g1)).
    assert (state g2 = state g /\ world g2 = world g /\ left g2 = left g /\ right g2 = right g)
      as (Hs2 & Hw2 & Hl2 & Hr2).
    { subst g2. destruct (BallObj.vx (ball g1) <? 0);
        match goal with |- context [hitPaddle ?e ?a ?b ?c ?d ?g] =>
          destruct (hitPaddle_frame e a b c d g) as (-> & -> & -> & ->) end; auto. }
    assert (layout_ok g2) as Hlay2 by (apply (layout_ok_ext g); assumption).
    set (g3 := if BallObj.x (ball g2) <? - World.ballR (world g1) * 2
               then score env ScoreSide.R g2
               else if BallObj.x (ball g2) >? World.w (world g2) + World.ballR (world g1) * 2
                    then score env ScoreSide.L g2
                    else g2).
    assert (layout_ok g3 /\ State.diff (state g3) = State.diff (state g)) as [Hlay3 Hd3].
    { subst g3. rewrite <- Hs2.
      destruct (BallObj.x (ball g2) <? _); [apply score_invariant; assumption |].
      destruct (BallObj.x (ball g2) >? _); [apply score_invariant; assumption |]. auto. }
    split.
    + apply (layout_ok_ext g3); auto.
    + simpl. rewrite Hd3. exact Hpre.
  - assert (State.mode (state g) <> Mode.play) as Hidle
      by (intros Heq; rewrite Heq in Hmode; discriminate).
    destruct (ballStep_idle env dt g Hidle) as (Hs & Hw & Hl & Hr & _).
    split; [apply (layout_ok_ext g); assumption | rewrite Hs; exact Hpre].
Qed.

(** The game starts on a well-laid-out field, at the Normal preset. *)
Lemma boot_invariant (env : Env.t) (now : number) (c : Canvas.t) :
  layout_ok (boot env now c) /\ preset (State.diff (state (boot env now c))).
Proof.
  unfold boot. cbv zeta. split.
  - eapply layout_ok_ext; [| | | apply resetRound_layout_ok]; reflexivity.
  - unfold emit at 1, setMode at 1, emit at 1, with_state at 1.
    cbn [state State.diff set_mode].
    rewrite resetRound_state. cbn [state State.diff set_mode].
    unfold setSound, setDifficulty, emit, with_state.
    cbn [state State.diff set_sound set_diff].
    unfold preset, DiffOrder. simpl. auto.
Qed.

(** A serve sends the ball off at [ballSpeed * DPR], below the cap of the
    paddle hits. *)
Lemma serve_speed (env : Env.t) (rnd : number) (isLeft : bool) (g : Game) :
  preset (State.diff (state g)) ->
  let g' := serve env rnd (if isLeft then 1 else -1) g in
  ballSpeed (ball g') = DifficultyConfig.ballSpeed (State.diff (state g)) * DPR env /\
  ballSpeed (ball g') <= 1780 * DPR env.
Proof.
  intros Hpre g'. subst g'. unfold serve. cbv zeta. simpl.
  unfold ballSpeed. simpl. rewrite speedOf_polar.
  pose proof (DPR_range env) as Hdpr.
  assert (0 <= DifficultyConfig.ballSpeed (State.diff (state g)) <= 980) as Hb.
  { unfold preset, DiffOrder in Hpre. simpl in Hpre.
    destruct Hpre as [<- | [<- | [<- | []]]]; simpl; lra. }
  rewrite Rabs_pos_eq by nra. split; [reflexivity | nra].
Qed.

(** A flat ball that strikes the centre of a resting paddle leaves
    horizontally. *)
Lemma centre_hit_is_horizontal (opts : Opts.t) :
  HitResult.hit (resolvePaddleHit opts) = true ->
  Paddle.h (Opts.paddle opts) <> 0 -> Opts.dpr opts <> 0 ->
  Ball.y (Opts.ball opts)
    = Paddle.y (Opts.paddle opts) + Paddle.h (Opts.paddle opts) * 0.5 ->
  Paddle.vy (Opts.paddle opts) = 0 ->
  hitAngle (Opts.paddle opts) (Opts.ball opts) (Opts.dpr opts) = 0 /\
  HitResult.vy (resolvePaddleHit opts) = 0.
Proof.
  intros Hhit Hh Hdpr Hy Hvy. apply hit_overlap in Hhit.
  assert (hitAngle (Opts.paddle opts) (Opts.ball opts) (Opts.dpr opts) = 0) as Hang.
  { unfold hitAngle. cbv zeta. rewrite Hy, Hvy.
    replace (Paddle.y (Opts.paddle opts) + Paddle.h (Opts.paddle opts) * 0.5
             - (Paddle.y (Opts.paddle opts) + Paddle.h (Opts.paddle opts) * 0.5))
      with 0 by ring.
    unfold Rdiv. rewrite !Rmult_0_l.
    rewrite (clamp_inside 0) by lra. rewrite Rplus_0_l. apply clamp_inside. lra. }
  split; [exact Hang |].
  rewrite resolvePaddleHit_overlap by assumption. cbv zeta. simpl.
  rewrite Hang. unfold Math.sin. rewrite sin_0. ring.
Qed.

(** * Further properties of the code *)

(** ** The kernel *)

(** X1: with [lo <= hi], [clamp] returns a value of [[lo, hi]]: [v] itself
    when [v] is inside, [lo] when [v] is below and [hi] when [v] is above;
    clamping twice is clamping once. *)
Theorem clamp_saturates (v lo hi : number) :
  lo <= hi ->
  lo <= clamp v lo hi <= hi /\
  (lo <= v <= hi -> clamp v lo hi = v) /\
  (v <= lo -> clamp v lo hi = lo) /\
  (hi <= v -> clamp v lo hi = hi) /\
  clamp (clamp v lo hi) lo hi = clamp v lo hi.
Proof.
  intros Hle.
  split; [apply clamp_bounds; assumption |].
  split; [apply clamp_inside |].
  split; [intros Hv; unfold clamp; cmp |].
  split; [intros Hv; unfold clamp; cmp |].
  apply clamp_inside. apply clamp_bounds. assumption.
Qed.

Lemma clamp_saturates_witness :
  clamp 5 0 10 = 5 /\ clamp (-1) 0 10 = 0 /\ clamp 99 0 10 = 10.
Proof.
  destruct (clamp_saturates 5 0 10 ltac:(lra)) as (_ & Hin & _).
  destruct (clamp_saturates (-1) 0 10 ltac:(lra)) as (_ & _ & Hlo & _).
  destruct (clamp_saturates 99 0 10 ltac:(lra)) as (_ & _ & _ & Hhi & _).
  repeat split; [apply Hin | apply Hlo | apply Hhi]; lra.
Defined.

(** [lerp] runs from [a] at [t = 0] to [b] at [t = 1] and, for [t] in
    [[0, 1]], stays between the two. *)
Theorem lerp_between (a b t : number) :
  0 <= t <= 1 ->
  Rmin a b <= lerp a b t <= Rmax a b /\ lerp a b 0 = a /\ lerp a b 1 = b.
Proof.
  intros [H0 H1]. unfold lerp, Rmin, Rmax.
  destruct (Rle_dec a b); repeat split; try ring; nra.
Qed.

Lemma lerp_between_witness : Rmin 2 10 <= lerp 2 10 0.25 <= Rmax 2 10.
Proof. apply (lerp_between 2 10 0.25). lra. Defined.

(** [sign] is two-valued, counts zero as positive, and gives back [v]
    when multiplied with the absolute value of [v]. *)
Theorem sign_two_valued (v : number) :
  (sign v = -1 \/ sign v = 1) /\
  (sign v = -1 <-> v < 0) /\
  sign 0 = 1 /\
  sign v * Math.abs v = v.
Proof.
  unfold sign, Math.abs, Rabs, ltb.
  destruct (Rlt_dec 0 0); [lra |].
  destruct (Rlt_dec v 0), (Rcase_abs v); repeat split; intros; try lra; auto.
Qed.

(** ** The fold *)

(** X2: on a field of positive span [foldYReflect] maps every [y], however
    far outside, into [[minY, maxY]]. *)
Theorem foldYReflect_lands_inside (y minY maxY : number) :
  0 < maxY - minY -> minY <= foldYReflect y minY maxY <= maxY.
Proof. apply foldYReflect_range. Qed.

Lemma foldYReflect_lands_inside_witness :
  0 <= foldYReflect 1234.5 0 10 <= 10 /\ 0 <= foldYReflect (-987) 0 10 <= 10.
Proof. split; apply foldYReflect_lands_inside; lra. Defined.

(** On a field without height the fold is flat. *)
Lemma foldYReflect_flat (y minY maxY : number) :
  maxY - minY <= 0 -> foldYReflect y minY maxY = minY.
Proof.
  intros Hspan. unfold foldYReflect. cbv zeta.
  rewrite (proj2 (leb_true _ _) Hspan). reflexivity.
Qed.

(** The reduction differs from its argument by a whole number of periods. *)
Lemma reduce_whole_periods (v p : number) :
  exists k : Z, ((v rem p) + p) rem p = v - p * IZR k.
Proof.
  unfold remainder.
  exists (trunc (v / p) + trunc ((v - p * IZR (trunc (v / p)) + p) / p) - 1)%Z.
  rewrite minus_IZR, plus_IZR. ring.
Qed.

(** Two values of [[0, p)] a whole number of periods apart are equal. *)
Lemma same_residue (r1 r2 p : number) (k : Z) :
  0 < p -> 0 <= r1 < p -> 0 <= r2 < p -> r1 - r2 = p * IZR k -> r1 = r2.
Proof.
  intros Hp H1 H2 Hk.
  assert (k = 0%Z) as ->.
  { apply one_IZR_lt1. split.
    - apply Rmult_lt_reg_l with p; [lra |]. rewrite <- Hk. lra.
    - apply Rmult_lt_reg_l with p; [lra |]. rewrite <- Hk. lra. }
  simpl in Hk. lra.
Qed.

Lemma reduce_periodic (v p : number) (n : Z) :
  0 < p -> (((v + p * IZR n) rem p) + p) rem p = ((v rem p) + p) rem p.
Proof.
  intros Hp.
  destruct (reduce_whole_periods (v + p * IZR n) p) as [k1 Hk1].
  destruct (reduce_whole_periods v p) as [k2 Hk2].
  apply (same_residue _ _ p (n - k1 + k2)%Z); try apply reduce_bounds; try assumption.
  rewrite Hk1, Hk2, plus_IZR, minus_IZR. ring.
Qed.

(** The reductions of [v] and [- v] add up to nothing or to one period. *)
Lemma reduce_opposite (v p : number) :
  0 < p ->
  let r := ((v rem p) + p) rem p in
  let r' := ((- v rem p) + p) rem p in
  (r = 0 /\ r' = 0) \/ (0 < r /\ r' = p - r).
Proof.
  intros Hp r r'.
  destruct (reduce_whole_periods v p) as [k Hk].
  destruct (reduce_whole_periods (- v) p) as [k' Hk'].
  pose proof (reduce_bounds v p Hp) as Hr.
  pose proof (reduce_bounds (- v) p Hp) as Hr'.
  fold r in Hk, Hr. fold r' in Hk', Hr'.
  assert (v = r + p * IZR k) as Hv by lra.
  destruct (Req_dec_T r 0) as [Hz | Hnz].
  - left. split; [assumption |].
    apply (same_residue r' 0 p (- k - k')%Z); try lra.
    rewrite Hk', Hv, Hz, minus_IZR, opp_IZR. ring.
  - right. split; [lra |].
    apply (same_residue r' (p - r) p (- k - k' - 1)%Z); try lra.
    rewrite Hk', Hv at 1. rewrite !minus_IZR, opp_IZR. simpl. ring.
Qed.

(** Shifting [y] by whole periods does not change the fold. *)
Lemma foldYReflect_shift (y minY maxY : number) (n : Z) :
  foldYReflect (y + 2 * (maxY - minY) * IZR n) minY maxY = foldYReflect y minY maxY.
Proof.
  destruct (Rle_dec (maxY - minY) 0) as [Hdeg | Hspan].
  - rewrite !foldYReflect_flat by assumption. reflexivity.
  - assert (0 < maxY - minY) as Hpos by lra.
    rewrite !foldYReflect_positive_span by assumption. cbv zeta.
    replace (y + 2 * (maxY - minY) * IZR n - minY)
      with (y - minY + 2 * (maxY - minY) * IZR n) by ring.
    rewrite reduce_periodic by lra. reflexivity.
Qed.

(** X3: the fold is periodic: shifting [y] by any whole number of periods
    [2 * (maxY - minY)] does not change the result (a ball that travels one
    period further is back where it was). *)
Theorem foldYReflect_periodic (y minY maxY : number) (n : Z) :
  foldYReflect (y + 2 * (maxY - minY) * IZR n) minY maxY = foldYReflect y minY maxY.
Proof. apply foldYReflect_shift. Qed.

(** X4: the fold is a mirror at both walls: the points [2 * minY - y] and
    [2 * maxY - y], the images of [y] in the bottom and in the top wall,
    fold to the same place as [y]. *)
Theorem foldYReflect_mirror (y minY maxY : number) :
  foldYReflect (2 * minY - y) minY maxY = foldYReflect y minY maxY /\
  foldYReflect (2 * maxY - y) minY maxY = foldYReflect y minY maxY.
Proof.
  assert (foldYReflect (2 * minY - y) minY maxY = foldYReflect y minY maxY) as Hbottom.
  { destruct (Rle_dec (maxY - minY) 0) as [Hdeg | Hspan].
    - rewrite !foldYReflect_flat by assumption. reflexivity.
    - assert (0 < maxY - minY) as Hpos by lra.
      rewrite !foldYReflect_positive_span by assumption. cbv zeta.
      replace (2 * minY - y - minY) with (- (y - minY)) by ring.
      pose proof (reduce_bounds (y - minY) (2 * (maxY - minY))) as Hr.
      destruct (reduce_opposite (y - minY) (2 * (maxY - minY))) as [[Hz Hz'] | [Hnz Hop]];
        [lra | rewrite Hz, Hz'; reflexivity |].
      rewrite Hop.
      set (r := (((y - minY) rem (2 * (maxY - minY))) + 2 * (maxY - minY))
                  rem (2 * (maxY - minY))) in *.
      assert (0 <= r < 2 * (maxY - minY)) as Hr' by (apply Hr; lra).
      unfold gtb, ltb.
      destruct (Rlt_dec (maxY - minY) (2 * (maxY - minY) - r)),
               (Rlt_dec (maxY - minY) r); lra. }
  split; [exact Hbottom |].
  replace (2 * maxY - y) with (2 * minY - y + 2 * (maxY - minY) * IZR 1) by (simpl; ring).
  rewrite foldYReflect_shift. exact Hbottom.
Qed.

(** ** The collision resolver *)

(** X5: for a paddle and a ball of non-negative size, [resolvePaddleHit]
    reports a hit exactly when the paddle's rectangle and the ball's bounding
    square have a point in common; boxes that only touch count as a hit. *)
Theorem hit_iff_common_point (opts : Opts.t) :
  0 <= Paddle.w (Opts.paddle opts) ->
  0 <= Paddle.h (Opts.paddle opts) ->
  0 <= Ball.r (Opts.ball opts) ->
  (HitResult.hit (resolvePaddleHit opts) = true <->
   exists qx qy,
     inBox (ballBox (Opts.ball opts)) qx qy /\ inBox (paddleBox (Opts.paddle opts)) qx qy).
Proof.
  intros Hw Hh Hr.
  assert (proper (ballBox (Opts.ball opts))) as Hpb by (unfold proper; simpl; lra).
  assert (proper (paddleBox (Opts.paddle opts))) as Hpp by (unfold proper; simpl; lra).
  pose proof (disjoint_no_common_point _ _ Hpb Hpp) as Hiff.
  split.
  - intros Hhit. apply hit_overlap in Hhit.
    set (a := ballBox (Opts.ball opts)) in *.
    set (b := paddleBox (Opts.paddle opts)) in *.
    exists (Rmax (Box.x0 a) (Box.x0 b)), (Rmax (Box.y0 a) (Box.y0 b)).
    unfold disjoint in Hhit. unfold proper in Hpb, Hpp. unfold inBox, Rmax.
    destruct (Rle_dec (Box.x0 a) (Box.x0 b)), (Rle_dec (Box.y0 a) (Box.y0 b)); lra.
  - intros (qx & qy & Hcommon).
    rewrite resolvePaddleHit_overlap; [reflexivity |].
    intros Hd. exact (proj1 Hiff Hd qx qy Hcommon).
Qed.

Lemma hit_iff_common_point_witness :
  HitResult.hit
    (resolvePaddleHit
       (Opts.mk (Paddle.mk 20 100 0 10 80) (Ball.mk 36 140 (-400) 0 6) true 1.0 1780 1))
  = true.
Proof.
  apply (hit_iff_common_point
           (Opts.mk (Paddle.mk 20 100 0 10 80) (Ball.mk 36 140 (-400) 0 6) true 1.0 1780 1));
    simpl; try lra.
  exists 30, 140. unfold inBox. simpl. lra.
Defined.

(** X6: a ball that strikes the exact centre of a paddle at rest (paddle
    height and [dpr] not zero) leaves horizontally: the outgoing angle is 0,
    [vy] is 0 and [vx] is the new speed, signed by the side. *)
Theorem centre_hit_leaves_flat (opts : Opts.t) :
  HitResult.hit (resolvePaddleHit opts) = true ->
  Paddle.h (Opts.paddle opts) <> 0 -> Opts.dpr opts <> 0 ->
  Ball.y (Opts.ball opts)
    = Paddle.y (Opts.paddle opts) + Paddle.h (Opts.paddle opts) * 0.5 ->
  Paddle.vy (Opts.paddle opts) = 0 ->
  hitAngle (Opts.paddle opts) (Opts.ball opts) (Opts.dpr opts) = 0 /\
  HitResult.vy (resolvePaddleHit opts) = 0 /\
  HitResult.vx (resolvePaddleHit opts)
  = hitSpeed (Opts.ball opts) (Opts.speedUp opts) (Opts.maxSpeed opts) (Opts.dpr opts)
    * (if Opts.isLeft opts then 1 else -1).
Proof.
  intros Hhit Hh Hdpr Hy Hvy.
  destruct (centre_hit_is_horizontal opts Hhit Hh Hdpr Hy Hvy) as [Hang Hvy'].
  split; [exact Hang |]. split; [exact Hvy' |].
  apply hit_overlap in Hhit.
  rewrite resolvePaddleHit_overlap by assumption. cbv zeta. simpl.
  rewrite Hang. unfold Math.cos. rewrite cos_0. ring.
Qed.

Lemma centre_hit_leaves_flat_witness :
  HitResult.vy (resolvePaddleHit leftHitExample) = 0.
Proof.
  apply (centre_hit_leaves_flat leftHitExample leftHitExample_hits); simpl; lra.
Defined.

(** On [[-0.95, 0.95]] the cosine is at least [cos 0.95]. *)
Lemma cos_lower_bound (a : number) : -0.95 <= a <= 0.95 -> Rtrigo_def.cos 0.95 <= Rtrigo_def.cos a.
Proof.
  intros [Hlo Hhi]. pose proof PI2_1 as Hpi.
  destruct (Rle_dec 0 a) as [Hpos | Hneg].
  - apply cos_decr_1; lra.
  - rewrite <- (cos_neg a). apply cos_decr_1; lra.
Qed.

(** X7: a hit on a paddle of height not zero, with [dpr] not zero, never
    sends the ball off near the vertical: the outgoing angle lies in
    [[-0.95, 0.95]] radians, so the horizontal part [|vx|] of the new
    velocity is at least [cos 0.95] times the new speed. *)
Theorem hit_keeps_ball_moving_across (opts : Opts.t) :
  HitResult.hit (resolvePaddleHit opts) = true ->
  Paddle.h (Opts.paddle opts) <> 0 ->
  Opts.dpr opts <> 0 ->
  -0.95 <= hitAngle (Opts.paddle opts) (Opts.ball opts) (Opts.dpr opts) <= 0.95 /\
  Math.cos 0.95
    * speedOf (HitResult.vx (resolvePaddleHit opts)) (HitResult.vy (resolvePaddleHit opts))
  <= Math.abs (HitResult.vx (resolvePaddleHit opts)).
Proof.
  intros Hhit _ _. split; [apply hitAngle_bounds |].
  rewrite hit_speed_is_abs by exact Hhit.
  apply hit_overlap in Hhit.
  rewrite resolvePaddleHit_overlap by assumption. cbv zeta. simpl.
  set (ang := hitAngle (Opts.paddle opts) (Opts.ball opts) (Opts.dpr opts)).
  set (s := hitSpeed (Opts.ball opts) (Opts.speedUp opts) (Opts.maxSpeed opts) (Opts.dpr opts)).
  pose proof (cos_lower_bound ang (hitAngle_bounds _ _ _)) as Hcos.
  pose proof (hitAngle_cos_pos (Opts.paddle opts) (Opts.ball opts) (Opts.dpr opts)) as Hpos.
  fold ang in Hpos. unfold Math.cos, Math.abs in *.
  assert (Rabs (Rtrigo_def.cos ang * s * (if Opts.isLeft opts then 1 else -1))
          = Rtrigo_def.cos ang * Rabs s) as ->.
  { rewrite !Rabs_mult. rewrite (Rabs_pos_eq (Rtrigo_def.cos ang)) by lra.
    destruct (Opts.isLeft opts).
    - rewrite Rabs_R1. ring.
    - rewrite (Rabs_left (-1)) by lra. ring. }
  apply Rmult_le_compat_r; [apply Rabs_pos | exact Hcos].
Qed.

Lemma hit_keeps_ball_moving_across_witness :
  Math.cos 0.95
    * speedOf (HitResult.vx (resolvePaddleHit rightHitExample))
        (HitResult.vy (resolvePaddleHit rightHitExample))
  <= Math.abs (HitResult.vx (resolvePaddleHit rightHitExample)).
Proof.
  apply (hit_keeps_ball_moving_across rightHitExample rightHitExample_hits);
    simpl; lra.
Defined.

(** ** The canvas and the layout of a round *)

(** X8: [DPR()] is the device pixel ratio clamped to [[1, 2.5]]: a ratio
    inside that range is returned as it is, and a ratio of zero counts as 1. *)
Theorem DPR_clamps_ratio (env : Env.t) :
  1 <= DPR env <= 2.5 /\
  (1 <= Env.devicePixelRatio env <= 2.5 -> DPR env = Env.devicePixelRatio env) /\
  (Env.devicePixelRatio env = 0 -> DPR env = 1) /\
  (Env.devicePixelRatio env <= 1 -> DPR env = 1) /\
  (2.5 <= Env.devicePixelRatio env -> DPR env = 2.5).
Proof.
  split; [apply DPR_range |].
  unfold DPR, orElse, eqb.
  destruct (Req_dec_T (Env.devicePixelRatio env) 0) as [Hz | Hnz];
    repeat split; intros H; cmp.
Qed.

Lemma fitCanvas_height (env : Env.t) (g : Game) :
  240 <= Canvas.height (canvas (fitCanvas env g)).
Proof. rewrite fitCanvas_spec. simpl. unfold Math.max. apply Rmax_l. Qed.

(** X9: [fitCanvas] changes the canvas only, never makes it smaller than
    320 by 240, and fitting twice is fitting once. *)
Theorem fitCanvas_fits (env : Env.t) (g : Game) :
  320 <= Canvas.width (canvas (fitCanvas env g)) /\
  240 <= Canvas.height (canvas (fitCanvas env g)) /\
  state (fitCanvas env g) = state g /\ world (fitCanvas env g) = world g /\
  left (fitCanvas env g) = left g /\ right (fitCanvas env g) = right g /\
  ball (fitCanvas env g) = ball g /\ fx (fitCanvas env g) = fx g /\
  fitCanvas env (fitCanvas env g) = fitCanvas env g.
Proof.
  rewrite (fitCanvas_spec env (fitCanvas env g)). rewrite !fitCanvas_spec. simpl.
  unfold Math.max.
  split; [apply Rmax_l |]. split; [apply Rmax_l |]. repeat split.
Qed.

(** X10: [resetRound(mode)] sets the mode it is given and keeps the scores
    and the difficulty; it leaves a field with both paddles inside it, the
    paddles at mid-height and within their vertical range, and the ball at
    rest in the centre, clear of both paddles. *)
Theorem resetRound_lays_out_round (env : Env.t) (mode : Mode.t) (g : Game) :
  let g' := resetRound env mode g in
  State.mode (state g') = mode /\
  State.scoreL (state g') = State.scoreL (state g) /\
  State.scoreR (state g') = State.scoreR (state g) /\
  State.diff (state g') = State.diff (state g) /\
  layout_ok g' /\ roundStart g' /\
  0 <= Left.y (left g') <= World.h (world g') - World.padH (world g') /\
  Left.x (left g') + World.padW (world g') < BallObj.x (ball g') - World.ballR (world g') /\
  BallObj.x (ball g') + World.ballR (world g') < Right.x (right g').
Proof.
  intros g'. subst g'.
  rewrite resetRound_state.
  split; [reflexivity |]. split; [reflexivity |]. split; [reflexivity |].
  split; [reflexivity |].
  split; [apply resetRound_layout_ok |]. split; [apply resetRound_roundStart |].
  unfold resetRound. cbv zeta. simpl.
  pose proof (fitCanvas_width env g) as Hw.
  pose proof (fitCanvas_height env g) as Hh.
  set (w := Canvas.width (canvas (fitCanvas env g))) in *.
  set (h := Canvas.height (canvas (fitCanvas env g))) in *.
  pose proof (round_bounds (w * 0.016)) as HpadW.
  pose proof (round_bounds (w * 0.04)) as Hinset.
  pose proof (round_bounds (w * 0.010)) as HballR.
  pose proof (round_bounds (h * 0.20)) as HpadH.
  unfold Math.max, Rmax.
  repeat match goal with |- context [Rle_dec ?a ?b] => destruct (Rle_dec a b) end;
    repeat split; lra.
Qed.

(** X11: a serve puts the game in play and sends the ball from where it is
    at speed [ballSpeed * DPR], which is below the cap of the paddle hits,
    to the right when [dir] is 1 and to the left when it is -1. *)
Theorem serve_sends_ball (env : Env.t) (rnd : number) (toRight : bool) (g : Game) :
  preset (State.diff (state g)) ->
  0 <= rnd < 1 ->
  let g' := serve env rnd (if toRight then 1 else -1) g in
  State.mode (state g') = Mode.play /\
  BallObj.x (ball g') = BallObj.x (ball g) /\ BallObj.y (ball g') = BallObj.y (ball g) /\
  ballSpeed (ball g') = DifficultyConfig.ballSpeed (State.diff (state g)) * DPR env /\
  ballSpeed (ball g') < 1780 * DPR env /\
  (if toRight then BallObj.vx (ball g') > 0 else BallObj.vx (ball g') < 0).
Proof.
  intros Hpre Hrnd g'.
  destruct (serve_speed env rnd toRight g Hpre) as [Hspeed _].
  fold g' in Hspeed.
  pose proof (DPR_range env) as Hdpr.
  assert (820 <= DifficultyConfig.ballSpeed (State.diff (state g)) <= 980) as Hb.
  { unfold preset, DiffOrder in Hpre. simpl in Hpre.
    destruct Hpre as [<- | [<- | [<- | []]]]; simpl; lra. }
  split; [reflexivity |]. split; [reflexivity |]. split; [reflexivity |].
  split; [exact Hspeed |]. split; [rewrite Hspeed; nra |].
  subst g'. unfold serve. cbv zeta. simpl.
  assert (0 < Math.cos (rnd * 0.62 - 0.31)) as Hcos.
  { unfold Math.cos. pose proof PI2_1. apply cos_gt_0; lra. }
  assert (0 < DifficultyConfig.ballSpeed (State.diff (state g)) * DPR env) as Hs by nra.
  pose proof (Rmult_lt_0_compat _ _ Hcos Hs) as Hprod.
  destruct toRight; lra.
Qed.

Lemma serve_sends_ball_witness :
  State.mode (state (serve env1 0.5 1 (gameInPlay 0 0 ballAtLeftPaddle))) = Mode.play /\
  BallObj.vx (ball (serve env1 0.5 1 (gameInPlay 0 0 ballAtLeftPaddle))) > 0.
Proof.
  destruct (serve_sends_ball env1 0.5 true (gameInPlay 0 0 ballAtLeftPaddle))
    as (Hmode & _ & _ & _ & _ & Hvx).
  - unfold preset, DiffOrder. simpl. auto.
  - lra.
  - split; [exact Hmode | exact Hvx].
Defined.

(** ** The ball step *)

Lemma hitPaddle_cases (env : Env.t) (px py pvy : number) (isLeft : bool) (g : Game) :
  hitPaddle env px py pvy isLeft g = (g, false) \/
  snd (hitPaddle env px py pvy isLeft g) = true.
Proof.
  rewrite hitPaddle_spec. cbv zeta.
  destruct (HitResult.hit _); [right | left]; reflexivity.
Qed.

(** A hit changes the ball's [x] and velocity and nothing else of the game
    but the glow and the sound. *)
Lemma hitPaddle_ball_y (env : Env.t) (px py pvy : number) (isLeft : bool) (g : Game) :
  BallObj.y (ball (fst (hitPaddle env px py pvy isLeft g))) = BallObj.y (ball g).
Proof.
  rewrite hitPaddle_spec. cbv zeta. destruct (HitResult.hit _); reflexivity.
Qed.

(** What [score] does to the state: one point for the side, and the mode
    becomes "over" or "serve". *)
Lemma score_effect (env : Env.t) (side : ScoreSide.t) (g : Game) :
  let g' := score env side g in
  (State.mode (state g') = Mode.over \/ State.mode (state g') = Mode.serve) /\
  State.diff (state g') = State.diff (state g) /\
  State.maxScore (state g') = State.maxScore (state g) /\
  match side with
  | ScoreSide.L =>
      State.scoreL (state g') = (State.scoreL (state g) + 1)%Z /\
      State.scoreR (state g') = State.scoreR (state g)
  | ScoreSide.R =>
      State.scoreL (state g') = State.scoreL (state g) /\
      State.scoreR (state g') = (State.scoreR (state g) + 1)%Z
  end.
Proof.
  cbv zeta. unfold score. cbv zeta.
  destruct side; cbn [state with_state emit State.scoreL State.scoreR State.maxScore set_scoreL set_scoreR];
    match goal with |- context [if ?c then _ else _] => destruct c end;
    try rewrite resetRound_state; simpl; auto.
Qed.

(** The ball step in play, taken apart: the ball moves, one paddle is
    tested, at most one side scores, and the glow fades. *)
Lemma ballStep_in_play (env : Env.t) (dt : number) (g : Game) :
  State.mode (state g) = Mode.play ->
  exists g2 g3 : Game,
    (g2 = ballMove dt g \/
     exists px py pvy isLeft,
       snd (hitPaddle env px py pvy isLeft (ballMove dt g)) = true /\
       g2 = fst (hitPaddle env px py pvy isLeft (ballMove dt g))) /\
    (g3 = g2 \/ g3 = score env ScoreSide.R g2 \/ g3 = score env ScoreSide.L g2) /\
    state (ballStep env dt g) = state g3 /\ world (ballStep env dt g) = world g3 /\
    left (ballStep env dt g) = left g3 /\ right (ballStep env dt g) = right g3 /\
    BallObj.x (ball (ballStep env dt g)) = BallObj.x (ball g3) /\
    BallObj.y (ball (ballStep env dt g)) = BallObj.y (ball g3) /\
    BallObj.vx (ball (ballStep env dt g)) = BallObj.vx (ball g3) /\
    BallObj.vy (ball (ballStep env dt g)) = BallObj.vy (ball g3).
Proof.
  intros Hplay. unfold ballStep. rewrite Hplay. simpl negb. cbv iota zeta.
  set (g1 := ballMove dt g).
  set (g2 := if BallObj.vx (ball g1) <? 0
             then fst (hitPaddle env (Left.x (left g1)) (Left.y (left g1))
                         (Left.vy (left g1)) true g1)
             else fst (hitPaddle env (Right.x (right g1)) (Right.y (right g1))
                         (Right.vy (right g1)) false g1)).
  set (g3 := if BallObj.x (ball g2) <? - World.ballR (world g1) * 2
             then score env ScoreSide.R g2
             else if BallObj.x (ball g2) >? World.w (world g2) + World.ballR (world g1) * 2
                  then score env ScoreSide.L g2
                  else g2).
  exists g2, g3. split; [| split].
  - subst g2. destruct (BallObj.vx (ball g1) <? 0).
    + destruct (hitPaddle_cases env (Left.x (left g1)) (Left.y (left g1))
                  (Left.vy (left g1)) true g1) as [Hmiss | Hhit].
      * left. rewrite Hmiss. reflexivity.
      * right. eauto 10.
    + destruct (hitPaddle_cases env (Right.x (right g1)) (Right.y (right g1))
                  (Right.vy (right g1)) false g1) as [Hmiss | Hhit].
      * left. rewrite Hmiss. reflexivity.
      * right. eauto 10.
  - subst g3. destruct (BallObj.x (ball g2) <? _); [auto |].
    destruct (BallObj.x (ball g2) >? _); auto.
  - simpl. repeat split.
Qed.

Lemma ballMove_between_walls (dt : number) (g : Game) :
  2 * World.ballR (world g) <= World.h (world g) ->
  let y1 := BallObj.y (ball g) + BallObj.vy (ball g) * dt in
  World.ballR (world g) <= BallObj.y (ball (ballMove dt g))
    <= World.h (world g) - World.ballR (world g) /\
  (World.ballR (world g) <= y1 <= World.h (world g) - World.ballR (world g) ->
   ball (ballMove dt g)
   = BallObj.mk (BallObj.x (ball g) + BallObj.vx (ball g) * dt) y1
       (BallObj.vx (ball g)) (BallObj.vy (ball g)) (BallObj.glow (ball g))) /\
  (y1 < World.ballR (world g) -> 0 <= BallObj.vy (ball (ballMove dt g))) /\
  (World.h (world g) - World.ballR (world g) < y1 -> BallObj.vy (ball (ballMove dt g)) <= 0).
Proof.
  intros Hfit y1. subst y1. unfold ballMove. cbv zeta.
  pose proof (Rabs_pos (BallObj.vy (ball g))) as Habs.
  unfold gtb, ltb, Math.abs.
  destruct (Rlt_dec _ (World.ballR (world g))) as [Htop | Htop]; simpl.
  - repeat split; intros; lra.
  - destruct (Rlt_dec (World.h (world g) - World.ballR (world g)) _) as [Hbot | Hbot]; simpl;
      repeat split; intros; try lra.
Qed.

(** A step that starts and ends in play scored for nobody. *)
Lemma ballStep_stays_in_play (env : Env.t) (dt : number) (g : Game) :
  State.mode (state g) = Mode.play ->
  State.mode (state (ballStep env dt g)) = Mode.play ->
  exists g2 : Game,
    (g2 = ballMove dt g \/
     exists px py pvy isLeft,
       snd (hitPaddle env px py pvy isLeft (ballMove dt g)) = true /\
       g2 = fst (hitPaddle env px py pvy isLeft (ballMove dt g))) /\
    state (ballStep env dt g) = state g2 /\ world (ballStep env dt g) = world g2 /\
    left (ballStep env dt g) = left g2 /\ right (ballStep env dt g) = right g2 /\
    BallObj.x (ball (ballStep env dt g)) = BallObj.x (ball g2) /\
    BallObj.y (ball (ballStep env dt g)) = BallObj.y (ball g2) /\
    BallObj.vx (ball (ballStep env dt g)) = BallObj.vx (ball g2) /\
    BallObj.vy (ball (ballStep env dt g)) = BallObj.vy (ball g2).
Proof.
  intros Hplay Hstill.
  destruct (ballStep_in_play env dt g Hplay) as (g2 & g3 & Hg2 & Hg3 & Hs & Hrest).
  exists g2. split; [exact Hg2 |].
  destruct Hg3 as [-> | [-> | ->]].
  - split; [exact Hs | exact Hrest].
  - exfalso. rewrite Hs in Hstill.
    destruct (score_effect env ScoreSide.R g2) as ([Hm | Hm] & _);
      rewrite Hm in Hstill; discriminate.
  - exfalso. rewrite Hs in Hstill.
    destruct (score_effect env ScoreSide.L g2) as ([Hm | Hm] & _);
      rewrite Hm in Hstill; discriminate.
Qed.

(** A paddle the ball has not reached yet is not hit. *)
Lemma hitPaddle_not_reached (env : Env.t) (px py pvy : number) (isLeft : bool) (g : Game) :
  BallObj.x (ball g) + World.ballR (world g) < px ->
  hitPaddle env px py pvy isLeft g = (g, false).
Proof.
  intros Hfar. rewrite hitPaddle_spec. cbv zeta.
  rewrite resolvePaddleHit_miss; [reflexivity |].
  unfold disjoint, hitPaddleOpts. simpl. lra.
Qed.

(** A ball that ends its move between the two paddles and inside the
    margins neither hits nor scores. *)
Lemma ballStep_between_paddles (env : Env.t) (dt : number) (g : Game) :
  State.mode (state g) = Mode.play ->
  let x1 := BallObj.x (ball g) + BallObj.vx (ball g) * dt in
  Left.x (left g) + World.padW (world g) < x1 - World.ballR (world g) ->
  x1 + World.ballR (world g) < Right.x (right g) ->
  - World.ballR (world g) * 2 <= x1 <= World.w (world g) + World.ballR (world g) * 2 ->
  state (ballStep env dt g) = state g /\
  BallObj.y (ball (ballStep env dt g)) = BallObj.y (ball (ballMove dt g)) /\
  BallObj.vx (ball (ballStep env dt g)) = BallObj.vx (ball g) /\
  BallObj.vy (ball (ballStep env dt g)) = BallObj.vy (ball (ballMove dt g)).
Proof.
  intros Hplay x1 Hleft Hright Hin. subst x1.
  unfold ballStep. rewrite Hplay. simpl negb. cbv iota zeta.
  destruct (ballMove_frame dt g) as (Hs & Hw & Hl & Hr & Hx & Hvx).
  set (g1 := ballMove dt g) in *.
  rewrite (hitPaddle_passed env (Left.x (left g1))) by (rewrite Hl, Hw, Hx; lra).
  rewrite (hitPaddle_not_reached env (Right.x (right g1))) by (rewrite Hr, Hw, Hx; lra).
  simpl fst.
  match goal with |- context [if ?c then g1 else g1] =>
    replace (if c then g1 else g1) with g1 by (destruct c; reflexivity) end.
  rewrite Hw, Hx.
  rewrite (proj2 (ltb_false _ _)) by lra.
  rewrite (proj2 (gtb_false _ _)) by lra.
  simpl. auto.
Qed.

(** X12: while the game stays in play, a ball step keeps the ball between
    the top and bottom walls (on a field at least one ball high), leaves the
    field and the score alone, and moves the ball by [vy * dt] when that
    does not cross a wall. *)
Theorem ballStep_keeps_ball_between_walls (env : Env.t) (dt : number) (g : Game) :
  State.mode (state g) = Mode.play ->
  State.mode (state (ballStep env dt g)) = Mode.play ->
  2 * World.ballR (world g) <= World.h (world g) ->
  let g' := ballStep env dt g in
  let y1 := BallObj.y (ball g) + BallObj.vy (ball g) * dt in
  World.ballR (world g) <= BallObj.y (ball g') <= World.h (world g) - World.ballR (world g) /\
  (World.ballR (world g) <= y1 <= World.h (world g) - World.ballR (world g) ->
   BallObj.y (ball g') = y1) /\
  world g' = world g /\ state g' = state g.
Proof.
  intros Hplay Hstill Hfit g' y1.
  destruct (ballStep_stays_in_play env dt g Hplay Hstill)
    as (g2 & Hg2 & Hs & Hw & _ & _ & _ & Hy & _).
  fold g' in Hs, Hw, Hy.
  destruct (ballMove_frame dt g) as (Hs1 & Hw1 & _).
  destruct (ballMove_between_walls dt g Hfit) as (Hin & Hfree & _).
  assert (BallObj.y (ball g2) = BallObj.y (ball (ballMove dt g))
          /\ state g2 = state g /\ world g2 = world g) as (Hy2 & Hs2 & Hw2).
  { destruct Hg2 as [-> | (px & py & pvy & isLeft & _ & ->)].
    - auto.
    - rewrite hitPaddle_ball_y.
      destruct (hitPaddle_frame env px py pvy isLeft (ballMove dt g)) as (-> & -> & _).
      auto. }
  rewrite Hy, Hy2, Hw, Hw2, Hs, Hs2.
  split; [exact Hin |]. split; [| auto].
  intros Hy1. rewrite (Hfree Hy1). reflexivity.
Qed.

Lemma ballStep_keeps_ball_between_walls_witness :
  9.5 <= BallObj.y (ball (ballStep env1 0.016
                            (gameInPlay 0 0 (BallObj.mk 480 15 300 (-900) 0)))) <= 540 - 9.5.
Proof.
  apply (ballStep_keeps_ball_between_walls env1 0.016
           (gameInPlay 0 0 (BallObj.mk 480 15 300 (-900) 0))).
  - reflexivity.
  - destruct (ballStep_between_paddles env1 0.016
                (gameInPlay 0 0 (BallObj.mk 480 15 300 (-900) 0))) as (Hs & _);
      [reflexivity | simpl; lra | simpl; lra | simpl; lra |].
    rewrite Hs. reflexivity.
  - simpl. lra.
Defined.

(** X13: while the game stays in play, a ball step never lets the ball's
    speed fall below the smaller of its old speed and the cap [1780 * DPR]:
    wall bounces keep the speed, and a paddle hit raises it to
    [min (speed * speedUp) cap]. *)
Theorem ballStep_keeps_pace (env : Env.t) (dt : number) (g : Game) :
  State.mode (state g) = Mode.play ->
  State.mode (state (ballStep env dt g)) = Mode.play ->
  preset (State.diff (state g)) ->
  let old := ballSpeed (ball g) in
  let new := ballSpeed (ball (ballStep env dt g)) in
  Rmin old (1780 * DPR env) <= new /\
  (new = old \/
   new = Rmin (old * DifficultyConfig.speedUp (State.diff (state g))) (1780 * DPR env)).
Proof.
  intros Hplay Hstill Hpre old new.
  destruct (ballStep_stays_in_play env dt g Hplay Hstill)
    as (g2 & Hg2 & _ & _ & _ & _ & _ & _ & Hvx & Hvy).
  assert (new = ballSpeed (ball g2)) as Hnew
    by (subst new; unfold ballSpeed; rewrite Hvx, Hvy; reflexivity).
  pose proof (ballMove_speed dt g) as Hmove. fold old in Hmove.
  destruct (ballMove_frame dt g) as (Hs1 & _).
  pose proof (preset_speedUp _ Hpre) as Hup.
  pose proof (DPR_range env) as Hdpr.
  assert (0 <= old) as Hold by apply speedOf_nonneg.
  destruct Hg2 as [-> | (px & py & pvy & isLeft & Hhit & ->)].
  - rewrite Hnew, Hmove. split; [apply Rmin_l | left; reflexivity].
  - rewrite Hnew. rewrite hitPaddle_outgoing by (try rewrite Hs1; assumption).
    rewrite Hs1, Hmove. split; [| right; reflexivity].
    assert (old <= old * DifficultyConfig.speedUp (State.diff (state g))) by nra.
    unfold Rmin.
    destruct (Rle_dec old (1780 * DPR env)),
             (Rle_dec (old * DifficultyConfig.speedUp (State.diff (state g))) (1780 * DPR env));
      lra.
Qed.

Lemma ballStep_keeps_pace_witness :
  Rmin (ballSpeed (BallObj.mk 480 15 300 (-900) 0)) (1780 * DPR env1)
  <= ballSpeed (ball (ballStep env1 0.016 (gameInPlay 0 0 (BallObj.mk 480 15 300 (-900) 0)))).
Proof.
  apply (ballStep_keeps_pace env1 0.016 (gameInPlay 0 0 (BallObj.mk 480 15 300 (-900) 0))).
  - reflexivity.
  - destruct (ballStep_between_paddles env1 0.016
                (gameInPlay 0 0 (BallObj.mk 480 15 300 (-900) 0))) as (Hs & _);
      [reflexivity | simpl; lra | simpl; lra | simpl; lra |].
    rewrite Hs. reflexivity.
  - unfold preset, DiffOrder. simpl. auto.
Defined.

(** The two outcomes of [score]: the match is over exactly when a score has
    reached the target, and otherwise the next round is to be served. *)
Lemma score_outcome (env : Env.t) (side : ScoreSide.t) (g : Game) :
  let g' := score env side g in
  (State.mode (state g') = Mode.over /\
   (State.maxScore (state g') <= State.scoreL (state g')
    \/ State.maxScore (state g') <= State.scoreR (state g'))%Z) \/
  (State.mode (state g') = Mode.serve /\
   (State.scoreL (state g') < State.maxScore (state g')
    /\ State.scoreR (state g') < State.maxScore (state g'))%Z).
Proof.
  cbv zeta. unfold score. cbv zeta.
  destruct side;
    cbn [state with_state emit State.scoreL State.scoreR State.maxScore set_scoreL set_scoreR];
    match goal with |- context [if ?c then _ else _] => destruct c eqn:Hc end;
    try rewrite resetRound_state; simpl;
    rewrite !Z.geb_leb in Hc;
    rewrite ?orb_true_iff, ?orb_false_iff, ?Z.leb_le, ?Z.leb_gt in Hc;
    first [left; split; [reflexivity | lia] | right; split; [reflexivity | lia]].
Qed.

(** X14: a ball step never lowers a score and never changes the target or
    the difficulty.  Either it leaves both scores and the mode as they were,
    or the game was in play and exactly one side gains exactly one point;
    then the mode is "over" if a score has reached the target and "serve"
    if none has. *)
Theorem ballStep_scores_one_point_at_most (env : Env.t) (dt : number) (g : Game) :
  let g' := ballStep env dt g in
  State.diff (state g') = State.diff (state g) /\
  State.maxScore (state g') = State.maxScore (state g) /\
  ((State.scoreL (state g') = State.scoreL (state g) /\
    State.scoreR (state g') = State.scoreR (state g) /\
    State.mode (state g') = State.mode (state g)) \/
   (State.mode (state g) = Mode.play /\
    ((State.scoreL (state g') = State.scoreL (state g) + 1 /\
      State.scoreR (state g') = State.scoreR (state g)) \/
     (State.scoreL (state g') = State.scoreL (state g) /\
      State.scoreR (state g') = State.scoreR (state g) + 1))%Z /\
    ((State.mode (state g') = Mode.over /\
      (State.maxScore (state g') <= State.scoreL (state g')
       \/ State.maxScore (state g') <= State.scoreR (state g'))%Z) \/
     (State.mode (state g') = Mode.serve /\
      (State.scoreL (state g') < State.maxScore (state g')
       /\ State.scoreR (state g') < State.maxScore (state g'))%Z)))).
Proof.
  intros g'. subst g'.
  destruct (Mode.eqb (State.mode (state g)) Mode.play) eqn:Hmode.
  - assert (State.mode (state g) = Mode.play) as Hplay
      by (destruct (State.mode (state g)); try discriminate; reflexivity).
    destruct (ballStep_in_play env dt g Hplay) as (g2 & g3 & Hg2 & Hg3 & Hs & _).
    destruct (ballMove_frame dt g) as (Hs1 & _).
    assert (state g2 = state g) as Hs2.
    { destruct Hg2 as [-> | (px & py & pvy & isLeft & _ & ->)]; [exact Hs1 |].
      destruct (hitPaddle_frame env px py pvy isLeft (ballMove dt g)) as (-> & _).
      exact Hs1. }
    rewrite Hs.
    destruct Hg3 as [-> | [-> | ->]].
    + rewrite Hs2. split; [reflexivity |]. split; [reflexivity |]. left. auto.
    + destruct (score_effect env ScoreSide.R g2) as (_ & Hd & Hm & HL & HR).
      pose proof (score_outcome env ScoreSide.R g2) as Hout. cbv zeta in Hout.
      rewrite Hs2 in Hd, Hm, HL, HR.
      split; [exact Hd |]. split; [exact Hm |].
      right. split; [exact Hplay |]. split; [right; split; assumption | exact Hout].
    + destruct (score_effect env ScoreSide.L g2) as (_ & Hd & Hm & HL & HR).
      pose proof (score_outcome env ScoreSide.L g2) as Hout. cbv zeta in Hout.
      rewrite Hs2 in Hd, Hm, HL, HR.
      split; [exact Hd |]. split; [exact Hm |].
      right. split; [exact Hplay |]. split; [left; split; assumption | exact Hout].
  - assert (State.mode (state g) <> Mode.play) as Hidle
      by (intros Heq; rewrite Heq in Hmode; discriminate).
    destruct (ballStep_idle env dt g Hidle) as (-> & _).
    split; [reflexivity |]. split; [reflexivity |]. left. auto.
Qed.

(** X15: in play, on a well-laid-out field, a ball integrated past the left
    margin (more than two radii left of the field) scores for the right
    side: the right score goes up by one and the left score stays.  Below
    the target the round is reset in "serve" mode; at the target the mode
    is "over" and field, paddles and ball position stay as they were. *)
Theorem ballStep_left_exit (env : Env.t) (dt : number) (g : Game) :
  State.mode (state g) = Mode.play ->
  layout_ok g ->
  BallObj.x (ball g) + BallObj.vx (ball g) * dt < - World.ballR (world g) * 2 ->
  let g' := ballStep env dt g in
  State.scoreR (state g') = (State.scoreR (state g) + 1)%Z /\
  State.scoreL (state g') = State.scoreL (state g) /\
  if ((State.scoreL (state g) >=? State.maxScore (state g))%Z
      || (State.scoreR (state g) + 1 >=? State.maxScore (state g))%Z)
  then State.mode (state g') = Mode.over /\
       world g' = world g /\ left g' = left g /\ right g' = right g /\
       BallObj.x (ball g') = BallObj.x (ball g) + BallObj.vx (ball g) * dt
  else State.mode (state g') = Mode.serve /\ roundStart g'.
Proof.
  intros Hplay Hlay Hexit g'.
  destruct (ballMove_frame dt g) as (Hs & Hw & Hl & Hr & Hx & Hvx).
  destruct Hlay as (Hw0 & Hr0 & HpW & HpH & Hlx0 & Hlx1 & Hrx0 & Hrx1).
  assert (g' = let g1 := score env ScoreSide.R (ballMove dt g) in
               with_ball
                 (BallObj.mk (BallObj.x (ball g1)) (BallObj.y (ball g1))
                    (BallObj.vx (ball g1)) (BallObj.vy (ball g1))
                    (lerp (BallObj.glow (ball g1)) 0 (1 - Math.exp (- 5 * dt)))) g1) as ->.
  { subst g'. unfold ballStep. rewrite Hplay. simpl negb. cbv iota zeta.
    set (g1 := ballMove dt g) in *.
    assert (forall px py pvy isLeft, 0 <= px ->
              fst (hitPaddle env px py pvy isLeft g1) = g1) as Hmiss.
    { intros px py pvy isLeft Hin. rewrite hitPaddle_not_reached; [reflexivity |].
      rewrite Hw, Hx. lra. }
    rewrite Hl, Hr, !Hmiss by assumption.
    match goal with |- context [if ?c then g1 else g1] =>
      replace (if c then g1 else g1) with g1 by (destruct c; reflexivity) end.
    rewrite Hw, Hx. rewrite (proj2 (ltb_true _ _)) by lra. reflexivity. }
  cbv zeta. unfold score. cbv zeta.
  cbn [state with_state emit State.scoreL State.scoreR State.maxScore set_scoreR].
  rewrite Hs.
  destruct ((State.scoreL (state g) >=? State.maxScore (state g))%Z
            || (State.scoreR (state g) + 1 >=? State.maxScore (state g))%Z).
  - simpl. rewrite ?Hs, ?Hw, ?Hl, ?Hr, ?Hx. repeat split.
  - unfold with_ball at 1 2 3. cbn [state]. rewrite resetRound_state.
    split; [reflexivity |]. split; [reflexivity |]. split; [reflexivity |].
    unfold roundStart. simpl. repeat split.
Qed.

Lemma ballStep_left_exit_witness :
  State.scoreR (state (ballStep env1 0.016
                         (gameInPlay 3 10 (BallObj.mk (-10) 270 (-900) 0 0)))) = 11%Z /\
  State.mode (state (ballStep env1 0.016
                       (gameInPlay 3 10 (BallObj.mk (-10) 270 (-900) 0 0)))) = Mode.over.
Proof.
  destruct (ballStep_left_exit env1 0.016 (gameInPlay 3 10 (BallObj.mk (-10) 270 (-900) 0 0)))
    as (HR & _ & Hrest).
  - reflexivity.
  - unfold layout_ok. simpl. lra.
  - simpl. lra.
  - split; [exact HR | exact (proj1 Hrest)].
Defined.

(** X16: outside play the ball step only lets the ball drift: state, field
    and paddles stay, the velocity stays, and for [dt >= 0] the ball's
    offset from the centre of the field shrinks by the factor
    [exp (- 8 * dt)], so the ball never moves away from the centre. *)
Theorem ballStep_drifts_to_centre (env : Env.t) (dt : number) (g : Game) :
  State.mode (state g) <> Mode.play ->
  0 <= dt ->
  let g' := ballStep env dt g in
  let cx := World.w (world g) * 0.5 in
  let cy := World.h (world g) * 0.5 in
  state g' = state g /\ world g' = world g /\ left g' = left g /\ right g' = right g /\
  BallObj.vx (ball g') = BallObj.vx (ball g) /\ BallObj.vy (ball g') = BallObj.vy (ball g) /\
  BallObj.x (ball g') - cx = (BallObj.x (ball g) - cx) * Math.exp (- 8 * dt) /\
  BallObj.y (ball g') - cy = (BallObj.y (ball g) - cy) * Math.exp (- 8 * dt) /\
  Rabs (BallObj.x (ball g') - cx) <= Rabs (BallObj.x (ball g) - cx) /\
  Rabs (BallObj.y (ball g') - cy) <= Rabs (BallObj.y (ball g) - cy).
Proof.
  intros Hidle Hdt g' cx cy.
  destruct (ballStep_idle env dt g Hidle) as (Hs & Hw & Hl & Hr & _).
  fold g' in Hs, Hw, Hl, Hr.
  assert (0 < Math.exp (- 8 * dt) <= 1) as [Hpos Hle].
  { unfold Math.exp. split; [apply exp_pos |].
    rewrite <- exp_0. destruct (Req_dec_T dt 0) as [-> | Hnz].
    - rewrite Rmult_0_r. lra.
    - left. apply exp_increasing. lra. }
  assert (BallObj.vx (ball g') = BallObj.vx (ball g)
          /\ BallObj.vy (ball g') = BallObj.vy (ball g)
          /\ BallObj.x (ball g') - cx = (BallObj.x (ball g) - cx) * Math.exp (- 8 * dt)
          /\ BallObj.y (ball g') - cy = (BallObj.y (ball g) - cy) * Math.exp (- 8 * dt))
    as (Hvx & Hvy & Hx & Hy).
  { subst g' cx cy. unfold ballStep.
    destruct (State.mode (state g)); simpl; try contradiction;
      unfold lerp; repeat split; ring. }
  repeat (split; [assumption |]).
  rewrite Hx, Hy, !Rabs_mult, (Rabs_pos_eq (Math.exp (- 8 * dt))) by lra.
  split.
  - pose proof (Rabs_pos (BallObj.x (ball g) - cx)). nra.
  - pose proof (Rabs_pos (BallObj.y (ball g) - cy)). nra.
Qed.

Lemma ballStep_drifts_to_centre_witness :
  Rabs (BallObj.x (ball (ballStep env1 0.016
                           (with_state (set_mode Mode.serve (state (gameInPlay 0 0 ballLeavingRight)))
                              (gameInPlay 0 0 ballLeavingRight)))) - 960 * 0.5)
  <= Rabs (975 - 960 * 0.5).
Proof.
  apply (ballStep_drifts_to_centre env1 0.016
           (with_state (set_mode Mode.serve (state (gameInPlay 0 0 ballLeavingRight)))
              (gameInPlay 0 0 ballLeavingRight))).
  - simpl. discriminate.
  - lra.
Defined.

(** ** The difficulty *)

(** X17: [cycleDifficulty] goes round the presets by label, Easy to Normal
    to Hard and back to Easy; a difficulty whose label is none of the three
    is followed by Easy.  The result is always a preset, and mode and scores
    are not touched. *)
Theorem cycleDifficulty_goes_round (g : Game) :
  let d := State.diff (state g) in
  let d' := State.diff (state (cycleDifficulty g)) in
  preset d' /\
  (DifficultyConfig.label d = "Easy"%string -> d' = Difficulty.Normal) /\
  (DifficultyConfig.label d = "Normal"%string -> d' = Difficulty.Hard) /\
  (DifficultyConfig.label d = "Hard"%string -> d' = Difficulty.Easy) /\
  (DifficultyConfig.label d <> "Easy"%string ->
   DifficultyConfig.label d <> "Normal"%string ->
   DifficultyConfig.label d <> "Hard"%string -> d' = Difficulty.Easy) /\
  State.mode (state (cycleDifficulty g)) = State.mode (state g) /\
  State.scoreL (state (cycleDifficulty g)) = State.scoreL (state g) /\
  State.scoreR (state (cycleDifficulty g)) = State.scoreR (state g).
Proof.
  intros d d'. split; [apply cycleDifficulty_preset |].
  assert (d' = if String.eqb "Easy" (DifficultyConfig.label d) then Difficulty.Normal
               else if String.eqb "Normal" (DifficultyConfig.label d) then Difficulty.Hard
                    else Difficulty.Easy) as Hnext.
  { subst d d'. unfold cycleDifficulty.
    set (same := fun d0 => String.eqb (DifficultyConfig.label d0)
                   (DifficultyConfig.label (State.diff (state g)))).
    change (String.eqb "Easy" (DifficultyConfig.label (State.diff (state g))))
      with (same Difficulty.Easy).
    change (String.eqb "Normal" (DifficultyConfig.label (State.diff (state g))))
      with (same Difficulty.Normal).
    unfold DiffOrder at 1. cbn [findIndex].
    destruct (same Difficulty.Easy); [reflexivity |].
    destruct (same Difficulty.Normal); [reflexivity |].
    destruct (same Difficulty.Hard); reflexivity. }
  rewrite Hnext.
  destruct (String.eqb_spec "Easy" (DifficultyConfig.label d)) as [He | He];
    [| destruct (String.eqb_spec "Normal" (DifficultyConfig.label d)) as [Hn | Hn]];
    repeat split; intros; try reflexivity; try congruence.
Qed.

(** ** Paddles *)

(** With the bounds the wrong way round the lower one wins. *)
Lemma clamp_lower_wins (v lo hi : number) : hi < lo -> clamp v lo hi = lo.
Proof. intros H. unfold clamp. cmp. Qed.

(** A value that equals one inside the range is what [clamp] returns. *)
Lemma clamp_of_inside_value (v v' lo hi : number) :
  lo <= v' <= hi -> v = v' -> clamp v lo hi = v'.
Proof. intros H ->. apply clamp_inside. exact H. Qed.

Lemma paddleMove_snd_bounds (env : Env.t) (wd : World.t) (y vy dt desire : number) :
  - (1120 * DPR env) <= snd (paddleMove env wd y vy dt desire) <= 1120 * DPR env.
Proof.
  unfold paddleMove. cbv zeta. simpl snd.
  pose proof (DPR_range env). apply clamp_bounds. lra.
Qed.

Lemma paddleMove_fst_bounds (env : Env.t) (wd : World.t) (y vy dt desire : number) :
  World.padH wd <= World.h wd ->
  0 <= fst (paddleMove env wd y vy dt desire) <= World.h wd - World.padH wd.
Proof.
  intros Hfit. unfold paddleMove. cbv zeta. simpl fst. apply clamp_bounds. lra.
Qed.

(** X18: whatever it is given, [paddleMove] leaves the paddle with a speed
    of at most [1120 * DPR] and, on a field at least one paddle high, at a
    position inside [[0, h - padH]]; on a field lower than the paddle the
    paddle is put at 0. *)
Theorem paddleMove_keeps_paddle_in_field
  (env : Env.t) (wd : World.t) (y vy dt desire : number) :
  let moved := paddleMove env wd y vy dt desire in
  Math.abs (snd moved) <= 1120 * DPR env /\
  (World.padH wd <= World.h wd -> 0 <= fst moved <= World.h wd - World.padH wd) /\
  (World.h wd < World.padH wd -> fst moved = 0).
Proof.
  intros moved. subst moved. split; [| split].
  - pose proof (paddleMove_snd_bounds env wd y vy dt desire) as Hb.
    unfold Math.abs. apply Rabs_le. lra.
  - apply paddleMove_fst_bounds.
  - intros Hlow. unfold paddleMove. cbv zeta. simpl fst.
    apply clamp_lower_wins. lra.
Qed.

(** The new velocity of [paddleMove] is a blend of the old velocity and the
    target [desire * 1120 * DPR]. *)
Lemma paddleMove_blend (env : Env.t) (wd : World.t) (y vy dt desire : number) :
  0 <= dt -> -1 <= desire <= 1 ->
  - (1120 * DPR env) <= vy <= 1120 * DPR env ->
  exists k : number,
    0 <= k <= 1 /\
    snd (paddleMove env wd y vy dt desire)
    = desire * (1120 * DPR env) - (desire * (1120 * DPR env) - vy) * k /\
    (dt = 0 -> k = 1) /\
    (1120 / 6200 <= dt -> k = 0).
Proof.
  intros Hdt Hdes Hvy. pose proof (DPR_range env) as Hdpr.
  set (cap := 1120 * DPR env) in *.
  set (c := clamp (6200 * DPR env * dt / cap) 0 1).
  assert (0 <= c <= 1) as Hc by (apply clamp_bounds; lra).
  assert (0 < Math.exp (- (24) * dt) <= 1) as [Hpos Hle].
  { unfold Math.exp. split; [apply exp_pos |].
    rewrite <- exp_0. destruct (Req_dec_T dt 0) as [-> | Hnz].
    - rewrite Rmult_0_r. lra.
    - left. apply exp_increasing. lra. }
  exists (Math.exp (- (24) * dt) * (1 - c)).
  assert (6200 * DPR env * dt / cap = 6200 / 1120 * dt) as Hratio
    by (unfold cap; field; lra).
  split; [nra |]. split; [| split].
  - unfold paddleMove. cbv zeta. simpl snd. fold cap. fold c. unfold lerp.
    set (e := Math.exp (- (24) * dt)) in *.
    set (T := desire * cap).
    assert (- cap <= T <= cap) as HT by (subst T; nra).
    assert (0 <= e * (1 - c) <= 1) as Hk by nra.
    apply clamp_of_inside_value; [| ring].
    pose proof (Rmult_le_pos (T + cap) (1 - e * (1 - c))).
    pose proof (Rmult_le_pos (vy + cap) (e * (1 - c))).
    pose proof (Rmult_le_pos (cap - T) (1 - e * (1 - c))).
    pose proof (Rmult_le_pos (cap - vy) (e * (1 - c))).
    lra.
  - intros ->. subst c. rewrite Hratio.
    replace (6200 / 1120 * 0) with 0 by lra.
    rewrite clamp_inside by lra.
    unfold Math.exp. replace (- (24) * 0) with 0 by ring. rewrite exp_0. ring.
  - intros Hlong. subst c. rewrite Hratio.
    replace (clamp (6200 / 1120 * dt) 0 1) with 1; [ring |].
    unfold clamp. cmp.
Qed.

Lemma abs_le_inv (a b : number) : Rabs a <= b -> - b <= a <= b.
Proof. unfold Rabs. destruct (Rcase_abs a); lra. Qed.

(** X19: for [dt >= 0], a desire in [[-1, 1]] and a paddle within the speed
    limit, [paddleMove] moves the velocity toward the target
    [desire * 1120 * DPR] without overshooting it: the new velocity lies
    between the old one and the target.  With [dt = 0] it is the old
    velocity, and from [dt = 1120 / 6200] on it is the target itself.  The
    position moves by the new velocity and is clamped into the field. *)
Theorem paddleMove_approaches_target
  (env : Env.t) (wd : World.t) (y vy dt desire : number) :
  0 <= dt -> -1 <= desire <= 1 ->
  Math.abs vy <= 1120 * DPR env ->
  let target := desire * (1120 * DPR env) in
  let moved := paddleMove env wd y vy dt desire in
  Rmin vy target <= snd moved <= Rmax vy target /\
  (dt = 0 -> snd moved = vy) /\
  (1120 / 6200 <= dt -> snd moved = target) /\
  fst moved = clamp (y + snd moved * dt) 0 (World.h wd - World.padH wd).
Proof.
  intros Hdt Hdes Hvy target moved.
  assert (- (1120 * DPR env) <= vy <= 1120 * DPR env) as Hvy'
    by (apply abs_le_inv; exact Hvy).
  destruct (paddleMove_blend env wd y vy dt desire Hdt Hdes Hvy')
    as (k & Hk & Hsnd & Hzero & Hlong).
  fold moved in Hsnd. fold target in Hsnd.
  split; [| split; [| split]].
  - rewrite Hsnd. unfold Rmin, Rmax.
    pose proof (Rmult_le_pos (Rabs (target - vy)) k (Rabs_pos _) (proj1 Hk)).
    destruct (Rle_dec vy target); nra.
  - intros H0. rewrite Hsnd, (Hzero H0). ring.
  - intros Hl. rewrite Hsnd, (Hlong Hl). ring.
  - reflexivity.
Qed.

Lemma paddleMove_approaches_target_witness :
  Rmin 0 (1 * (1120 * DPR env1))
  <= snd (paddleMove env1 (World.mk 960 540 16 108 36 9.5 5 18) 216 0 0.016 1)
  <= Rmax 0 (1 * (1120 * DPR env1)).
Proof.
  apply (paddleMove_approaches_target env1 (World.mk 960 540 16 108 36 9.5 5 18)
           216 0 0.016 1).
  - lra.
  - lra.
  - rewrite DPR_env1. unfold Math.abs. rewrite Rabs_R0. lra.
Defined.

(** ** The opponent *)

Lemma preset_ai (d : DifficultyConfig.t) :
  preset d -> 0 < DifficultyConfig.aiMaxSpeed d /\ 0 < DifficultyConfig.aiReactionMs d
              /\ 0 < DifficultyConfig.aiErrorPx d.
Proof.
  unfold preset, DiffOrder. simpl.
  intros [<- | [<- | [<- | []]]]; simpl; lra.
Qed.

(** [aiStep] while a round is on (mode "play" or "serve"), taken apart: the
    opponent re-aims if its reaction time has passed, steers with a desire
    in [[-1, 1]], and is held to its top speed. *)
Lemma aiStep_active (env : Env.t) (now rnd dt : number) (g : Game) :
  State.mode (state g) = Mode.play \/ State.mode (state g) = Mode.serve ->
  exists (ty : option number) (lr desire : number),
    -1 <= desire <= 1 /\
    ((now - Right.lastReactAt (right g)
        <= DifficultyConfig.aiReactionMs (State.diff (state g))
      /\ ty = Right.targetY (right g) /\ lr = Right.lastReactAt (right g)) \/
     (now - Right.lastReactAt (right g)
        > DifficultyConfig.aiReactionMs (State.diff (state g))
      /\ lr = now
      /\ exists t, ty = Some t /\
           (World.padH (world g) <= World.h (world g) ->
            0 <= t <= World.h (world g) - World.padH (world g)))) /\
    let oldY := Right.y (right g) in
    let moved := paddleMove env (world g) oldY (Right.vy (right g)) dt desire in
    let maxV := DifficultyConfig.aiMaxSpeed (State.diff (state g)) * DPR env in
    let actualV := (fst moved - oldY) / dt in
    aiStep env now rnd dt g =
      with_right
        (if Math.abs actualV >? maxV
         then Right.mk (Right.x (right g)) (oldY + sign actualV * maxV * dt)
                (sign actualV * maxV) ty lr
         else Right.mk (Right.x (right g)) (fst moved) (snd moved) ty lr) g.
Proof.
  intros Hmode. unfold aiStep. cbv zeta.
  assert (negb (Mode.eqb (State.mode (state g)) Mode.play)
          && negb (Mode.eqb (State.mode (state g)) Mode.serve) = false) as ->
    by (destruct Hmode as [-> | ->]; reflexivity).
  destruct (_ >? DifficultyConfig.aiReactionMs _) eqn:Hreact.
  - apply gtb_true in Hreact.
    cbn [Right.x Right.y Right.vy Right.targetY Right.lastReactAt].
    match goal with
    | |- context [Some ?t] => exists (Some t), now
    end.
    match goal with
    | |- context [paddleMove _ _ _ _ _ ?d] => exists d
    end.
    split; [apply clamp_bounds; lra |].
    split.
    + right. split; [lra |]. split; [reflexivity |].
      eexists. split; [reflexivity |]. intros Hfit. apply clamp_bounds. lra.
    + cbv zeta. destruct (_ >? _); reflexivity.
  - apply gtb_false in Hreact.
    exists (Right.targetY (right g)), (Right.lastReactAt (right g)).
    match goal with
    | |- context [paddleMove _ _ _ _ _ ?d] => exists d
    end.
    split; [apply clamp_bounds; lra |].
    split.
    + left. split; [lra |]. auto.
    + cbv zeta. destruct (_ >? _); reflexivity.
Qed.

(** X20: while a round is on (mode "play" or "serve"), with [dt > 0] and a
    preset difficulty, one [aiStep] moves the opponent's paddle by at most
    [aiMaxSpeed * DPR * dt], keeps it inside the field if it was inside (on
    a field at least one paddle high), and changes nothing but the right
    paddle. *)
Theorem aiStep_holds_opponent_speed (env : Env.t) (now rnd dt : number) (g : Game) :
  State.mode (state g) = Mode.play \/ State.mode (state g) = Mode.serve ->
  0 < dt ->
  preset (State.diff (state g)) ->
  let g' := aiStep env now rnd dt g in
  let maxV := DifficultyConfig.aiMaxSpeed (State.diff (state g)) * DPR env in
  Rabs (Right.y (right g') - Right.y (right g)) <= maxV * dt /\
  (World.padH (world g) <= World.h (world g) ->
   0 <= Right.y (right g) <= World.h (world g) - World.padH (world g) ->
   0 <= Right.y (right g') <= World.h (world g) - World.padH (world g)) /\
  Right.x (right g') = Right.x (right g) /\
  state g' = state g /\ world g' = world g /\ left g' = left g /\ ball g' = ball g.
Proof.
  intros Hmode Hdt Hpre g' maxV.
  destruct (aiStep_active env now rnd dt g Hmode) as (ty & lr & desire & Hdes & _ & Hstep).
  cbv zeta in Hstep. subst g'. rewrite Hstep. clear Hstep.
  destruct (preset_ai _ Hpre) as (Hai & _).
  pose proof (DPR_range env) as Hdpr.
  assert (0 < maxV) as HmaxV by (subst maxV; nra).
  fold maxV.
  set (oldY := Right.y (right g)).
  set (moved := paddleMove env (world g) oldY (Right.vy (right g)) dt desire).
  set (a := (fst moved - oldY) / dt).
  assert (fst moved - oldY = a * dt) as Ha by (subst a; field; lra).
  unfold gtb, ltb, Math.abs.
  destruct (Rlt_dec maxV (Rabs a)) as [Hcap | Hfree];
    cbn [right with_right Right.y Right.x state world left ball]; fold oldY.
  - assert (sign a = -1 /\ a < - maxV \/ sign a = 1 /\ maxV < a) as Hsign.
    { unfold sign, ltb. unfold Rabs in Hcap.
      destruct (Rlt_dec a 0); [left | right]; (split; [reflexivity |]);
        destruct (Rcase_abs a); lra. }
    split; [| split; [| repeat split]].
    + replace (oldY + sign a * maxV * dt - oldY) with (sign a * maxV * dt) by ring.
      destruct Hsign as [[-> _] | [-> _]].
      * rewrite Rabs_left by nra. lra.
      * rewrite Rabs_pos_eq by nra. lra.
    + intros Hfit Hin.
      pose proof (paddleMove_fst_bounds env (world g) oldY (Right.vy (right g)) dt desire Hfit)
        as Hmoved.
      fold moved in Hmoved.
      destruct Hsign as [[-> Hlt] | [-> Hgt]]; nra.
  - split; [| split; [| repeat split]].
    + rewrite Ha, Rabs_mult, (Rabs_pos_eq dt) by lra.
      apply Rmult_le_compat_r; lra.
    + intros Hfit _. apply paddleMove_fst_bounds. exact Hfit.
Qed.

Lemma aiStep_holds_opponent_speed_witness :
  Rabs (Right.y (right (aiStep env1 1000 0.5 0.016 (gameInPlay 0 0 ballLeavingRight))) - 216)
  <= 980 * DPR env1 * 0.016.
Proof.
  apply (aiStep_holds_opponent_speed env1 1000 0.5 0.016 (gameInPlay 0 0 ballLeavingRight)).
  - left. reflexivity.
  - lra.
  - unfold preset, DiffOrder. simpl. auto.
Defined.

(** X21: while a round is on, the opponent re-aims only when more than
    [aiReactionMs] have passed since it last did: until then its target and
    the time of its last reaction stay as they are; once the time has
    passed, the reaction time becomes [now] and the new target lies inside
    the paddle's range (on a field at least one paddle high). *)
Theorem aiStep_reacts_after_latency (env : Env.t) (now rnd dt : number) (g : Game) :
  State.mode (state g) = Mode.play \/ State.mode (state g) = Mode.serve ->
  let g' := aiStep env now rnd dt g in
  let waited := now - Right.lastReactAt (right g) in
  (waited <= DifficultyConfig.aiReactionMs (State.diff (state g)) ->
   Right.targetY (right g') = Right.targetY (right g) /\
   Right.lastReactAt (right g') = Right.lastReactAt (right g)) /\
  (waited > DifficultyConfig.aiReactionMs (State.diff (state g)) ->
   Right.lastReactAt (right g') = now /\
   exists t, Right.targetY (right g') = Some t /\
     (World.padH (world g) <= World.h (world g) ->
      0 <= t <= World.h (world g) - World.padH (world g))).
Proof.
  intros Hmode g' waited.
  destruct (aiStep_active env now rnd dt g Hmode) as (ty & lr & desire & _ & Hreact & Hstep).
  cbv zeta in Hstep.
  assert (Right.targetY (right g') = ty /\ Right.lastReactAt (right g') = lr) as [Hty Hlr].
  { subst g'. rewrite Hstep. destruct (_ >? _); simpl; auto. }
  rewrite Hty, Hlr. subst waited.
  destruct Hreact as [(Hle & -> & ->) | (Hgt & -> & t & -> & Ht)]; split; intros H; try lra.
  - auto.
  - split; [reflexivity |]. exists t. auto.
Qed.

Lemma aiStep_reacts_after_latency_witness :
  Right.targetY (right (aiStep env1 100 0.5 0.016 (gameInPlay 0 0 ballLeavingRight))) = None /\
  Right.lastReactAt (right (aiStep env1 100 0.5 0.016 (gameInPlay 0 0 ballLeavingRight))) = 0.
Proof.
  apply (aiStep_reacts_after_latency env1 100 0.5 0.016 (gameInPlay 0 0 ballLeavingRight)).
  - left. reflexivity.
  - simpl. lra.
Defined.

(** X22: outside a round (mode "attract", "pause" or "over") the opponent's
    paddle only bobs: its velocity is set to 0, it stays inside the field,
    it moves by at most [35 * dt], and its target and reaction time stay. *)
Theorem aiStep_idles (env : Env.t) (now rnd dt : number) (g : Game) :
  State.mode (state g) <> Mode.play ->
  State.mode (state g) <> Mode.serve ->
  World.padH (world g) <= World.h (world g) ->
  0 <= Right.y (right g) <= World.h (world g) - World.padH (world g) ->
  0 <= dt ->
  let g' := aiStep env now rnd dt g in
  Right.vy (right g') = 0 /\
  0 <= Right.y (right g') <= World.h (world g) - World.padH (world g) /\
  Rabs (Right.y (right g') - Right.y (right g)) <= 35 * dt /\
  Right.x (right g') = Right.x (right g) /\
  Right.targetY (right g') = Right.targetY (right g) /\
  Right.lastReactAt (right g') = Right.lastReactAt (right g) /\
  state g' = state g /\ world g' = world g /\ left g' = left g /\ ball g' = ball g.
Proof.
  intros Hplay Hserve Hfit Hin Hdt g'. subst g'. unfold aiStep. cbv zeta.
  assert (negb (Mode.eqb (State.mode (state g)) Mode.play)
          && negb (Mode.eqb (State.mode (state g)) Mode.serve) = true) as ->
    by (destruct (State.mode (state g)); try reflexivity; contradiction).
  simpl.
  pose proof (SIN_bound (State.t' (state g) * 0.0012)) as Hsin.
  set (bob := Math.sin (State.t' (state g) * 0.0012) * 0.25).
  assert (-0.25 <= bob <= 0.25) as Hbob by (subst bob; unfold Math.sin; lra).
  split; [reflexivity |].
  split; [apply clamp_bounds; lra |].
  split; [| repeat split].
  assert (- (35 * dt) <= bob * 140 * dt <= 35 * dt) as Hstep by nra.
  apply Rabs_le. unfold clamp. cmp.
Qed.

Lemma aiStep_idles_witness :
  Right.vy (right (aiStep env1 100 0.5 0.016
                     (with_state (set_mode Mode.pause (state (gameInPlay 0 0 ballLeavingRight)))
                        (gameInPlay 0 0 ballLeavingRight)))) = 0.
Proof.
  apply (aiStep_idles env1 100 0.5 0.016
           (with_state (set_mode Mode.pause (state (gameInPlay 0 0 ballLeavingRight)))
              (gameInPlay 0 0 ballLeavingRight)));
    simpl; try discriminate; lra.
Defined.

(** ** The player *)

(** [leftInput], taken apart: a desire in [[-1, 1]] is worked out from the
    keys, the pointer and the mode, and the left paddle is moved by it. *)
Lemma leftInput_spec (env : Env.t) (input : Input.t) (dt : number) (g : Game) :
  exists desire : number,
    -1 <= desire <= 1 /\
    (Pointer.active (Input.pointer input)
     && Side.eqb (Pointer.side (Input.pointer input)) Side.left = false ->
     (Input.up input = true \/ Input.down input = true
      \/ State.mode (state g) <> Mode.attract) ->
     desire = (if Input.up input then -1 else 0) + (if Input.down input then 1 else 0)) /\
    leftInput env input dt g =
      let moved := paddleMove env (world g) (Left.y (left g)) (Left.vy (left g)) dt desire in
      with_left (Left.mk (Left.x (left g)) (fst moved) (snd moved) (Left.targetY (left g))) g.
Proof.
  unfold leftInput. cbv zeta.
  match goal with
  | |- context [paddleMove _ _ _ _ _ ?d] => exists d
  end.
  split; [| split; [| reflexivity]].
  - destruct (Mode.eqb (State.mode (state g)) Mode.attract);
      destruct (Pointer.active (Input.pointer input)
                && Side.eqb (Pointer.side (Input.pointer input)) Side.left);
      destruct (Input.up input), (Input.down input); simpl;
      try (apply clamp_bounds; lra); lra.
  - intros Hoff Hkeys. rewrite Hoff.
    destruct (Mode.eqb (State.mode (state g)) Mode.attract) eqn:Hmode.
    + destruct (Input.up input), (Input.down input); simpl; try ring.
      destruct Hkeys as [Hk | [Hk | Hk]]; try discriminate.
      exfalso. apply Hk. destruct (State.mode (state g)); try discriminate; reflexivity.
    + destruct (Input.up input), (Input.down input); simpl; ring.
Qed.

(** X23: [leftInput] changes the left paddle's position and velocity and
    nothing else; whatever the input, the paddle ends with a speed of at
    most [1120 * DPR] and, on a field at least one paddle high, inside the
    field. *)
Theorem leftInput_keeps_paddle_in_field
  (env : Env.t) (input : Input.t) (dt : number) (g : Game) :
  let g' := leftInput env input dt g in
  Math.abs (Left.vy (left g')) <= 1120 * DPR env /\
  (World.padH (world g) <= World.h (world g) ->
   0 <= Left.y (left g') <= World.h (world g) - World.padH (world g)) /\
  Left.x (left g') = Left.x (left g) /\ Left.targetY (left g') = Left.targetY (left g) /\
  state g' = state g /\ world g' = world g /\ right g' = right g /\ ball g' = ball g /\
  fx g' = fx g.
Proof.
  intros g'. subst g'.
  destruct (leftInput_spec env input dt g) as (desire & _ & _ & ->). cbv zeta.
  cbn [left with_left Left.x Left.y Left.vy Left.targetY state world right ball fx].
  split; [| split; [| repeat split]].
  - unfold Math.abs. apply Rabs_le. apply paddleMove_snd_bounds.
  - apply paddleMove_fst_bounds.
Qed.

(** X24: with no pointer on the left half, [dt >= 0] and a paddle within
    the speed limit, the keys steer: Up alone never raises the paddle's
    velocity, Down alone never lowers it (the y axis points down), and with
    both keys down, or with none outside "attract" mode, the paddle's speed
    does not grow. *)
Theorem leftInput_keys_steer (env : Env.t) (input : Input.t) (dt : number) (g : Game) :
  0 <= dt ->
  Math.abs (Left.vy (left g)) <= 1120 * DPR env ->
  Pointer.active (Input.pointer input)
  && Side.eqb (Pointer.side (Input.pointer input)) Side.left = false ->
  let vy := Left.vy (left g) in
  let vy' := Left.vy (left (leftInput env input dt g)) in
  (Input.up input = true -> Input.down input = false -> vy' <= vy) /\
  (Input.up input = false -> Input.down input = true -> vy <= vy') /\
  (Input.up input = true -> Input.down input = true -> Rabs vy' <= Rabs vy) /\
  (Input.up input = false -> Input.down input = false ->
   State.mode (state g) <> Mode.attract -> Rabs vy' <= Rabs vy).
Proof.
  intros Hdt Hvy Hoff vy vy'.
  destruct (leftInput_spec env input dt g) as (desire & Hdes & Hkeys & Hstep).
  specialize (Hkeys Hoff).
  assert (- (1120 * DPR env) <= vy <= 1120 * DPR env) as Hvy'
    by (apply abs_le_inv; exact Hvy).
  destruct (paddleMove_blend env (world g) (Left.y (left g)) vy dt desire Hdt Hdes Hvy')
    as (k & Hk & Hsnd & _).
  assert (vy' = desire * (1120 * DPR env) - (desire * (1120 * DPR env) - vy) * k) as Hnew
    by (subst vy'; rewrite Hstep; exact Hsnd).
  pose proof (DPR_range env) as Hdpr.
  assert (forall v', v' = vy * k -> Rabs v' <= Rabs vy) as Hshrink.
  { intros v' ->. rewrite Rabs_mult, (Rabs_pos_eq k) by lra.
    pose proof (Rabs_pos vy). nra. }
  repeat split.
  - intros Hu Hd. rewrite Hu, Hd in Hkeys. rewrite Hkeys in Hnew by auto. nra.
  - intros Hu Hd. rewrite Hu, Hd in Hkeys. rewrite Hkeys in Hnew by auto. nra.
  - intros Hu Hd. rewrite Hu, Hd in Hkeys. rewrite Hkeys in Hnew by auto.
    apply Hshrink. rewrite Hnew. ring.
  - intros Hu Hd Hmode. rewrite Hu, Hd in Hkeys. rewrite Hkeys in Hnew by auto.
    apply Hshrink. rewrite Hnew. ring.
Qed.

Lemma leftInput_keys_steer_witness :
  Left.vy (left (leftInput env1 (Input.mk true false (Pointer.mk false None Side.left 0))
                   0.016 (gameInPlay 0 0 ballLeavingRight))) <= 0.
Proof.
  apply (leftInput_keys_steer env1 (Input.mk true false (Pointer.mk false None Side.left 0))
           0.016 (gameInPlay 0 0 ballLeavingRight)).
  - lra.
  - simpl. rewrite DPR_env1. unfold Math.abs. rewrite Rabs_R0. lra.
  - reflexivity.
  - reflexivity.
  - reflexivity.
Defined.

(** ** The match and the keyboard *)

(** [resetMatch] puts both scores to 0 and starts a fresh round in "attract"
    mode with the overlay shown. *)
Lemma resetMatch_spec (env : Env.t) (g : Game) :
  let g' := resetMatch env g in
  State.scoreL (state g') = 0%Z /\ State.scoreR (state g') = 0%Z /\
  State.mode (state g') = Mode.attract /\
  State.diff (state g') = State.diff (state g) /\
  State.maxScore (state g') = State.maxScore (state g) /\
  layout_ok g' /\ roundStart g' /\
  exists before, fx g' = before ++ [ShowOverlay true].
Proof.
  cbv zeta. unfold resetMatch, showOverlay. cbv zeta.
  set (g0 := emit (ScoreText 0 0)
               (with_state (set_scoreR 0 (set_scoreL 0 (state g))) g)).
  assert (state (resetRound env Mode.attract g0)
          = set_mode Mode.attract (set_scoreR 0 (set_scoreL 0 (state g)))) as Hs
    by (rewrite resetRound_state; reflexivity).
  unfold setMode, emit at 1 2, with_state at 1.
  cbn [state world left right ball fx]. rewrite Hs. cbn.
  repeat (split; [reflexivity |]).
  split; [| split].
  - eapply layout_ok_ext; [| | | apply (resetRound_layout_ok env Mode.attract g0)]; reflexivity.
  - pose proof (resetRound_roundStart env Mode.attract g0) as Hr.
    unfold roundStart in *. exact Hr.
  - eexists. reflexivity.
Qed.

(** X25: the R key resets the match from any mode: both scores are 0, the
    mode is "attract", the round is laid out afresh with the ball at rest
    in the centre, the overlay is shown, and difficulty, target and the
    player's input stay as they were. *)
Theorem r_key_resets_match
  (env : Env.t) (upper : bool) (rndDir rndAngle : number) (input : Input.t) (g : Game) :
  let res := onKeyDown env (if upper then "R" else "r") rndDir rndAngle input g in
  let g' := snd (fst res) in
  fst (fst res) = input /\ snd res = [] /\
  State.scoreL (state g') = 0%Z /\ State.scoreR (state g') = 0%Z /\
  State.mode (state g') = Mode.attract /\
  State.diff (state g') = State.diff (state g) /\
  State.maxScore (state g') = State.maxScore (state g) /\
  layout_ok g' /\ roundStart g' /\
  exists before, fx g' = before ++ [ShowOverlay true].
Proof.
  intros res g'.
  assert (res = (input, resetMatch env (emit (StartText "Start") (showOverlay true g)), []))
    as Hres.
  { subst res. unfold onKeyDown. destruct upper; simpl; destruct input; reflexivity. }
  subst g'. rewrite Hres. cbn [fst snd].
  split; [reflexivity |]. split; [reflexivity |].
  apply (resetMatch_spec env (emit (StartText "Start") (showOverlay true g))).
Qed.

(** X26: the Space key toggles between "play" and "pause" and does nothing
    in the other modes; it asks the browser to drop the key's default
    action; it touches neither scores, field, paddles, ball nor input; and
    pressing it twice brings the mode back. *)
Theorem space_key_toggles_pause
  (env : Env.t) (r1 r2 r3 r4 : number) (input : Input.t) (g : Game) :
  let res := onKeyDown env " " r1 r2 input g in
  let g' := snd (fst res) in
  fst (fst res) = input /\ snd res = [PreventDefault] /\
  State.mode (state g')
  = match State.mode (state g) with
    | Mode.play => Mode.pause
    | Mode.pause => Mode.play
    | m => m
    end /\
  State.scoreL (state g') = State.scoreL (state g) /\
  State.scoreR (state g') = State.scoreR (state g) /\
  world g' = world g /\ left g' = left g /\ right g' = right g /\ ball g' = ball g /\
  State.mode (state (snd (fst (onKeyDown env " " r3 r4 input g')))) = State.mode (state g).
Proof.
  intros res g'. subst g' res. unfold onKeyDown.
  destruct input as [up down ptr]. simpl.
  destruct (State.mode (state g)) eqn:Hmode; simpl; rewrite ?Hmode; simpl;
    rewrite ?Hmode; repeat split.
Qed.

(** X27: the Enter key moves the game on: from "attract" it lays out a
    round and waits in "serve" mode, from "serve" it serves (to the left when
    the first random number is below one half, to the right otherwise), from
    "over" it resets the match, and in "play" and "pause" it does nothing.
    Scores change only when it leaves "over". *)
Theorem enter_key_moves_game_on
  (env : Env.t) (rndDir rndAngle : number) (input : Input.t) (g : Game) :
  let res := onKeyDown env "Enter" rndDir rndAngle input g in
  let g' := snd (fst res) in
  fst (fst res) = input /\ snd res = [] /\
  match State.mode (state g) with
  | Mode.attract =>
      State.mode (state g') = Mode.serve /\ roundStart g' /\ layout_ok g' /\
      State.scoreL (state g') = State.scoreL (state g) /\
      State.scoreR (state g') = State.scoreR (state g)
  | Mode.serve =>
      g' = serve env rndAngle (if rndDir <? 0.5 then -1 else 1) g /\
      State.mode (state g') = Mode.play /\
      State.scoreL (state g') = State.scoreL (state g) /\
      State.scoreR (state g') = State.scoreR (state g)
  | Mode.over =>
      State.mode (state g') = Mode.attract /\
      State.scoreL (state g') = 0%Z /\ State.scoreR (state g') = 0%Z /\ roundStart g'
  | Mode.play | Mode.pause => g' = g
  end.
Proof.
  intros res g'.
  assert (res =
          (input,
           if Mode.eqb (State.mode (state g)) Mode.attract then
             setMode Mode.serve (resetRound env Mode.serve (showOverlay false g))
           else if Mode.eqb (State.mode (state g)) Mode.serve then
             serve env rndAngle (if rndDir <? 0.5 then -1 else 1) g
           else if Mode.eqb (State.mode (state g)) Mode.over then
             resetMatch env (showOverlay false g)
           else g,
           [])) as Hres
    by (subst res; unfold onKeyDown; destruct input; reflexivity).
  subst g'. rewrite Hres. cbn [fst snd].
  split; [reflexivity |]. split; [reflexivity |].
  destruct (State.mode (state g)) eqn:Hmode; cbn [Mode.eqb].
  - set (g0 := showOverlay false g).
    assert (state (resetRound env Mode.serve g0) = set_mode Mode.serve (state g)) as Hs
      by (rewrite resetRound_state; reflexivity).
    unfold setMode, emit, with_state. cbn [state world left right ball]. rewrite Hs.
    split; [reflexivity |]. split; [| split; [| split; reflexivity]].
    + pose proof (resetRound_roundStart env Mode.serve g0) as Hr.
      unfold roundStart in *. exact Hr.
    + eapply layout_ok_ext; [| | | apply (resetRound_layout_ok env Mode.serve g0)];
        reflexivity.
  - repeat split.
  - reflexivity.
  - reflexivity.
  - destruct (resetMatch_spec env (showOverlay false g)) as (HL & HR & Hm & _ & _ & _ & Hr & _).
    auto.
Qed.

(** X28: a key other than Space, Enter and R never changes the game and
    asks nothing of the browser.  The movement keys (ArrowUp, w, W and
    ArrowDown, s, S) set the up or down flag of the input when pressed and
    clear it when released; every other key leaves the input as it is. *)
Theorem other_keys_only_steer
  (env : Env.t) (key : string) (r1 r2 : number) (input : Input.t) (g : Game) :
  String.eqb key " " = false -> String.eqb key "Enter" = false ->
  String.eqb key "r" = false -> String.eqb key "R" = false ->
  let res := onKeyDown env key r1 r2 input g in
  snd (fst res) = g /\ snd res = [] /\
  fst (fst res)
  = Input.mk (Input.up input || isUpKey key) (Input.down input || isDownKey key)
      (Input.pointer input) /\
  onKeyUp key (fst (fst res))
  = Input.mk (Input.up input && negb (isUpKey key)) (Input.down input && negb (isDownKey key))
      (Input.pointer input).
Proof.
  intros Hsp Hen Hr HR res. subst res. unfold onKeyDown, onKeyUp.
  rewrite Hsp, Hen, Hr, HR. cbn [orb fst snd].
  destruct input as [up down ptr].
  destruct (isUpKey key), (isDownKey key), up, down; simpl; repeat split.
Qed.

Lemma other_keys_only_steer_witness :
  fst (fst (onKeyDown env1 "w" 0 0 initialInput (gameInPlay 0 0 ballLeavingRight)))
  = Input.mk true false (Pointer.mk false None Side.left 0) /\
  onKeyUp "w" (fst (fst (onKeyDown env1 "w" 0 0 initialInput
                           (gameInPlay 0 0 ballLeavingRight))))
  = initialInput.
Proof.
  destruct (other_keys_only_steer env1 "w" 0 0 initialInput (gameInPlay 0 0 ballLeavingRight))
    as (_ & _ & Hdown & Hup); try reflexivity.
  split; [exact Hdown | exact Hup].
Defined.

(** ** The pointer *)

(** X29: a pointer going down is recorded as the active pointer, with a
    height inside the canvas and the browser asked to capture it.  From then
    on moves and releases of any other pointer are ignored, and a release
    of the same pointer clears the record; the keys' flags are never
    touched. *)
Theorem pointer_is_tracked_by_id
  (env : Env.t) (rectLeft rectTop : number) (ev : PointerEvent.t)
  (rndDir rndAngle : number) (input : Input.t) (g : Game) :
  let res := onPointerDown env rectLeft rectTop ev rndDir rndAngle input g in
  let input1 := fst (fst res) in
  snd res = [SetPointerCapture (PointerEvent.pointerId ev)] /\
  Pointer.active (Input.pointer input1) = true /\
  Pointer.id (Input.pointer input1) = Some (PointerEvent.pointerId ev) /\
  (0 <= Canvas.height (canvas g) ->
   0 <= Pointer.y (Input.pointer input1) <= Canvas.height (canvas g)) /\
  Input.up input1 = Input.up input /\ Input.down input1 = Input.down input /\
  (forall (ev' : PointerEvent.t) (g1 : Game) (top : number),
     PointerEvent.pointerId ev' <> PointerEvent.pointerId ev ->
     onPointerUp ev' input1 = input1 /\ onPointerMove env top ev' input1 g1 = input1) /\
  (forall ev' : PointerEvent.t,
     PointerEvent.pointerId ev' = PointerEvent.pointerId ev ->
     Pointer.active (Input.pointer (onPointerUp ev' input1)) = false /\
     Pointer.id (Input.pointer (onPointerUp ev' input1)) = None /\
     Input.up (onPointerUp ev' input1) = Input.up input /\
     Input.down (onPointerUp ev' input1) = Input.down input).
Proof.
  intros res input1. subst input1 res. unfold onPointerDown. cbn [fst snd].
  cbn [Input.pointer Input.up Input.down Pointer.active Pointer.id Pointer.y].
  repeat (split; [reflexivity |]).
  split; [intros Hh; unfold pointerToLocalY; cbv zeta; apply clamp_bounds; exact Hh |].
  repeat (split; [reflexivity |]).
  split.
  - intros ev' g1 top Hother.
    unfold onPointerUp, onPointerMove, otherPointer. cbv zeta.
    cbn [Input.pointer Pointer.id Pointer.active].
    apply Z.eqb_neq in Hother. rewrite Hother. split; reflexivity.
  - intros ev' Hsame.
    unfold onPointerUp, otherPointer. cbv zeta. cbn [Input.pointer Pointer.id].
    rewrite Hsame, Z.eqb_refl. repeat split.
Qed.

(** ** The frame *)

Lemma score_time (env : Env.t) (side : ScoreSide.t) (g : Game) :
  State.lastT (state (score env side g)) = State.lastT (state g) /\
  State.t' (state (score env side g)) = State.t' (state g).
Proof.
  unfold score. cbv zeta.
  destruct side; cbn [state with_state emit State.scoreL State.scoreR State.maxScore
                        set_scoreL set_scoreR];
    match goal with |- context [if ?c then _ else _] => destruct c end;
    try rewrite resetRound_state; simpl; auto.
Qed.

(** Neither the ball step, the opponent nor the player's input touch the
    clock, the difficulty or the target. *)
Lemma ballStep_time (env : Env.t) (dt : number) (g : Game) :
  State.lastT (state (ballStep env dt g)) = State.lastT (state g) /\
  State.t' (state (ballStep env dt g)) = State.t' (state g).
Proof.
  destruct (Mode.eqb (State.mode (state g)) Mode.play) eqn:Hmode.
  - assert (State.mode (state g) = Mode.play) as Hplay
      by (destruct (State.mode (state g)); try discriminate; reflexivity).
    destruct (ballStep_in_play env dt g Hplay) as (g2 & g3 & Hg2 & Hg3 & Hs & _).
    destruct (ballMove_frame dt g) as (Hs1 & _).
    assert (state g2 = state g) as Hs2.
    { destruct Hg2 as [-> | (px & py & pvy & isLeft & _ & ->)]; [exact Hs1 |].
      destruct (hitPaddle_frame env px py pvy isLeft (ballMove dt g)) as (-> & _).
      exact Hs1. }
    rewrite Hs.
    destruct Hg3 as [-> | [-> | ->]]; try rewrite <- Hs2; auto using score_time.
  - assert (State.mode (state g) <> Mode.play) as Hidle
      by (intros Heq; rewrite Heq in Hmode; discriminate).
    destruct (ballStep_idle env dt g Hidle) as (-> & _). auto.
Qed.

Lemma aiStep_state (env : Env.t) (now rnd dt : number) (g : Game) :
  state (aiStep env now rnd dt g) = state g.
Proof.
  unfold aiStep. cbv zeta.
  destruct (negb _ && negb _); [reflexivity |].
  destruct (_ >? DifficultyConfig.aiReactionMs _);
    cbn [Right.x Right.y Right.vy Right.targetY Right.lastReactAt];
    destruct (_ >? _); reflexivity.
Qed.

(** X30: a frame sets the time of the last frame to [now] and advances the
    elapsed time by the time passed since the last frame, clamped to
    between 0 and 32 milliseconds: a clock that stands still or runs
    backwards adds nothing, a long stall adds 32.  After the frame the field
    has the size of the canvas, which is at least 320 by 240. *)
Theorem tick_advances_clock
  (env : Env.t) (now nowAi rnd : number) (input : Input.t) (g : Game) :
  let g' := tick env now nowAi rnd input g in
  let passed := now - State.lastT (state g) in
  State.lastT (state g') = now /\
  0 <= State.t' (state g') - State.t' (state g) <= 32 /\
  (0 <= passed <= 32 -> State.t' (state g') = State.t' (state g) + passed) /\
  (passed <= 0 -> State.t' (state g') = State.t' (state g)) /\
  (32 <= passed -> State.t' (state g') = State.t' (state g) + 32) /\
  World.w (world g') = Canvas.width (canvas g') /\
  World.h (world g') = Canvas.height (canvas g') /\
  320 <= World.w (world g') /\ 240 <= World.h (world g').
Proof.
  intros g' passed.
  set (dt := clamp (passed / 1000) 0 0.032).
  assert (State.lastT (state g') = now /\ State.t' (state g') = State.t' (state g) + dt * 1000)
    as [HlastT Ht].
  { subst g' dt passed. unfold tick. cbv zeta.
    assert (forall gg, state (draw env gg) = state gg) as Hdraw
      by (intros gg; unfold draw; cbv zeta; rewrite fitCanvas_spec; reflexivity).
    rewrite Hdraw.
    match goal with
    | |- context [ballStep ?e ?d ?x] => destruct (ballStep_time e d x) as [-> ->]
    end.
    rewrite aiStep_state.
    match goal with
    | |- context [leftInput ?e ?i ?d ?x] =>
        destruct (leftInput_spec e i d x) as (desire & _ & _ & ->)
    end.
    cbv zeta. rewrite !fitCanvas_spec.
    cbn [state with_left with_world with_state with_canvas set_time State.lastT State.t'].
    split; reflexivity. }
  assert (0 <= dt <= 0.032) as Hdt by (apply clamp_bounds; lra).
  split; [exact HlastT |]. rewrite Ht.
  split; [lra |].
  split; [intros Hp; subst dt; rewrite clamp_inside by lra; lra |].
  split; [intros Hp; subst dt; unfold clamp; cmp |].
  split; [intros Hp; subst dt; unfold clamp; cmp |].
  subst g'. unfold tick, draw. cbv zeta. rewrite fitCanvas_spec.
  cbn [world canvas with_world with_canvas World.w World.h set_size Canvas.width Canvas.height].
  unfold Math.max.
  split; [reflexivity |]. split; [reflexivity |]. split; apply Rmax_l.
Qed.
